(** * Verification of bandwidth.py: scene calibration for network camera bandwidth tests

    Shallow embedding of the [Datapath] and [Controller] classes of
    [bandwidth.py].  External tools (ffmpeg, cairo, detail.exe, the camera
    console) are modelled by the data the Python code exchanges with them:
    the scores it reads back are oracles (functions of the scene
    parameters), the commands it issues are records or strings.

    Python floats produced by [/] are modelled as exact rationals [Q]. *)

From Stdlib Require Import ZArith QArith Qround Qminmax List String Ascii Lia.
From Stdlib Require Import FunctionalExtensionality Psatz.
Import ListNotations.
Open Scope Z_scope.

(** Display resolution fixed in [Datapath.__init__]. *)
Definition hor_res : Z := 3840.
Definition ver_res : Z := 2160.

(** ** Controller.make_motion *)
Module Motion.

Section MakeMotion.
(** [motion_score_of s]: the [self.motion_score] obtained by
    [self.make_scene(mo_size=s)] followed by [self.pscc(30.0, 'motion')]. *)
Variable motion_score_of : Q -> Z.
Variable motion_target : Z.

Inductive outcome :=
| Done (mo_size : Q)
| Next (x1 x2 : Q).

(** One pass of the [while True] body. *)
Definition make_motion_step (x1 x2 : Q) : outcome :=
  let mo_size := ((x1 + x2) / 2)%Q in
  let s := motion_score_of mo_size in
  if s =? motion_target then Done mo_size
  else if s >? motion_target then Next x1 mo_size
  else if s <? motion_target then Next mo_size x2
  else Next x1 x2.

(** The loop, with fuel bounding the number of passes; [None] means the
    loop is still running when the fuel runs out. *)
Fixpoint make_motion_loop (fuel : nat) (x1 x2 : Q) : option Q :=
  match fuel with
  | O => None
  | S f =>
      match make_motion_step x1 x2 with
      | Done m => Some m
      | Next a b => make_motion_loop f a b
      end
  end.

(** [x1 = 0], [x2 = self.hor_res]. *)
Definition make_motion (fuel : nat) : option Q :=
  make_motion_loop fuel 0 (inject_Z hor_res).

(** The bounds [(x1, x2)] at the start of pass [n] of the loop, when the
    loop has not stopped before. *)
Fixpoint make_motion_bounds (n : nat) (x1 x2 : Q) : option (Q * Q) :=
  match n with
  | O => Some (x1, x2)
  | S n' =>
      match make_motion_step x1 x2 with
      | Done _ => None
      | Next a b => make_motion_bounds n' a b
      end
  end.
End MakeMotion.

End Motion.

(** ** make_motion in Python floats *)
Module MotionFloat.

(** Round-to-nearest-even of an exact rational to an IEEE 754 binary64
    value (53-bit significand, subnormals below [2^-1022]); every value
    rounded here stays far below the overflow threshold [2^1024]. *)
Definition b64_round (q : Q) : Q :=
  let n := Qnum q in
  let d := Zpos (Qden q) in
  if n =? 0 then 0%Q else
  let a := Z.abs n in
  (** [k = floor (log2 (a / d))] *)
  let k0 := Z.log2 a - Z.log2 d in
  let k := if 0 <=? k0 then (if a <? d * 2 ^ k0 then k0 - 1 else k0)
           else (if a * 2 ^ (- k0) <? d then k0 - 1 else k0) in
  let e := Z.max (k - 52) (-1074) in
  (** [a / d = num / den * 2^e] *)
  let num := if 0 <=? e then a else a * 2 ^ (- e) in
  let den := if 0 <=? e then d * 2 ^ e else d in
  let m := num / den in
  let r := num mod den in
  let m' := if den <? 2 * r then m + 1
            else if 2 * r <? den then m
            else if Z.even m then m else m + 1 in
  let v := if 0 <=? e then inject_Z (m' * 2 ^ e)
           else (inject_Z m' / inject_Z (2 ^ (- e)))%Q in
  if n <? 0 then (- v)%Q else v.

(** [(x1+x2)/2]: the float sum rounded, then the division by 2 rounded
    (for the first pass, [0 + 3840] is an int and [/] rounds the exact
    quotient once, which is the same value). *)
Definition midpoint (x1 x2 : Q) : Q := b64_round (b64_round (x1 + x2) / 2).

Section MakeMotion.
Variable motion_score_of : Q -> Z.
Variable motion_target : Z.

(** One pass of the [while True] body, with the size as Python computes it. *)
Definition make_motion_step (x1 x2 : Q) : Motion.outcome :=
  let mo_size := midpoint x1 x2 in
  let s := motion_score_of mo_size in
  if s =? motion_target then Motion.Done mo_size
  else if s >? motion_target then Motion.Next x1 mo_size
  else if s <? motion_target then Motion.Next mo_size x2
  else Motion.Next x1 x2.

(** The bounds at the start of pass [n] (counting from 0), if the loop
    has not stopped before. *)
Fixpoint make_motion_bounds (n : nat) (x1 x2 : Q) : option (Q * Q) :=
  match n with
  | O => Some (x1, x2)
  | S n' =>
      match make_motion_step x1 x2 with
      | Motion.Done _ => None
      | Motion.Next a b => make_motion_bounds n' a b
      end
  end.
End MakeMotion.

End MotionFloat.

(** ** Score extraction: the regular expressions of check_detail / check_motion *)
Module Parse.

(** Python's [\d] on ASCII text. *)
Definition is_digit (c : ascii) : bool :=
  let n := nat_of_ascii c in (48 <=? n)%nat && (n <=? 57)%nat.

(** Python's [\s] on ASCII text: space, [\t\n\v\f\r] and [\x1c-\x1f]. *)
Definition is_space (c : ascii) : bool :=
  let n := nat_of_ascii c in
  (n =? 32)%nat || ((9 <=? n)%nat && (n <=? 13)%nat)
  || ((28 <=? n)%nat && (n <=? 31)%nat).

(** Greedy [\d+]: the maximal run of digits and the rest. *)
Fixpoint take_digits (s : string) : string * string :=
  match s with
  | String c s' =>
      if is_digit c then let (d, r) := take_digits s' in (String c d, r)
      else (EmptyString, s)
  | EmptyString => (EmptyString, EmptyString)
  end.

(** [int(...)] of a run of decimal digits. *)
Fixpoint digits_value (acc : Z) (s : string) : Z :=
  match s with
  | String c s' => digits_value (acc * 10 + (Z.of_nat (nat_of_ascii c) - 48)) s'
  | EmptyString => acc
  end.

Definition drop (n : nat) (s : string) : string :=
  substring n (String.length s - n) s.

(** Anchored match of [lit \s (\d+)] followed by [tail]; [tail] checks what
    must follow the digits. *)
Definition match_at (lit : string) (tail : string -> bool) (s : string)
  : option Z :=
  if prefix lit s then
    match drop (String.length lit) s with
    | String c r =>
        if is_space c then
          let (d, r') := take_digits r in
          match d with
          | EmptyString => None
          | String _ _ => if tail r' then Some (digits_value 0 d) else None
          end
        else None
    | EmptyString => None
    end
  else None.

(** [re.search]: leftmost position where the anchored match succeeds. *)
Fixpoint search (m : string -> option Z) (s : string) : option Z :=
  match m s with
  | Some v => Some v
  | None =>
      match s with
      | String _ s' => search m s'
      | EmptyString => None
      end
  end.

Definition percent_tail (r : string) : bool := prefix "%" r.
Definition percent_word_tail (r : string) : bool :=
  match r with
  | String c r' => is_space c && prefix "percent" r'
  | EmptyString => false
  end.

(** [re.search(r'HighDetail:[\s](\d+)%', output_str)] and its group 1. *)
Definition search_high (s : string) : option Z :=
  search (match_at "HighDetail:" percent_tail) s.
(** [re.search(r'LowDetail:[\s](\d+)%', output_str)]. *)
Definition search_low (s : string) : option Z :=
  search (match_at "LowDetail:" percent_tail) s.
(** [re.search(r'30s:\s(\d+)\spercent', daemon_output)]. *)
Definition search_motion (s : string) : option Z :=
  search (match_at "30s:" percent_word_tail) s.

End Parse.

(** ** Datapath.check_detail *)
Module Detail.

Record detail_state := mkDetail { high_detail : Z; low_detail : Z }.

Inductive detail_result :=
| DetailOk (st : detail_state)
| DetailExit.   (** [FileNotFoundError] caught, [sys.exit()] *)

(** [output] is the decoded stdout of [detail "test.png"], or [None] when
    the executable is not found. *)
Definition check_detail (output : option string) (st : detail_state)
  : detail_result :=
  match output with
  | None => DetailExit
  | Some output_str =>
      let st1 :=
        match Parse.search_high output_str with
        | Some h => mkDetail h (low_detail st)
        | None => st
        end in
      let st2 :=
        match Parse.search_low output_str with
        | Some l => mkDetail (high_detail st1) l
        | None => st1
        end in
      DetailOk st2
  end.

End Detail.

(** ** Datapath.check_motion *)
Module Sampler.

Definition sample_range : nat := 10.

Definition qsum (l : list Q) : Q := fold_right Qplus 0%Q l.

(** [statistics.mean] and [np.var] (population variance), exactly. *)
Definition mean (l : list Z) : Q :=
  (qsum (map inject_Z l) / inject_Z (Z.of_nat (List.length l)))%Q.
Definition np_var (l : list Z) : Q :=
  let m := mean l in
  (qsum (map (fun v => (inject_Z v - m) * (inject_Z v - m)) l)
     / inject_Z (Z.of_nat (List.length l)))%Q.

(** Python [int(q)]: truncation toward zero. *)
Definition py_int (q : Q) : Z := Z.quot (Qnum q) (Zpos (Qden q)).

(** [l[-n:]]. *)
Definition lastn (n : nat) (l : list Z) : list Z :=
  skipn (List.length l - n) l.

Inductive motion_result :=
| MotionScore (score : Z)
| MotionParseError (motion_list : list Z).
  (** [re.search] returned [None]: [.group(1)] raises [AttributeError]. *)

Section CheckMotion.
(** [readings k]: the score parsed from the output of the [k]-th ['ms']
    console command ([None] when the pattern is absent). *)
Variable readings : nat -> option Z.

Fixpoint check_motion_loop (fuel : nat) (motion_list : list Z)
  : option motion_result :=
  match fuel with
  | O => None
  | S f =>
      match readings (List.length motion_list) with
      | None => Some (MotionParseError motion_list)
      | Some motion_detec =>
          let ml := motion_list ++ [motion_detec] in
          if (List.length ml <? sample_range)%nat then check_motion_loop f ml
          else if (List.length ml =? 20)%nat then
            Some (MotionScore (py_int (mean ml)))
          else
            let data_set := lastn sample_range ml in
            if Qeq_bool (np_var data_set) 0 then
              Some (MotionScore (last data_set 0))
            else check_motion_loop f ml
      end
  end.

(** [self.motion_list = []], then [while True]; [None] only if the fuel
    runs out. *)
Definition check_motion (fuel : nat) : option motion_result :=
  check_motion_loop fuel [].
End CheckMotion.

(** The device outputs, parsed as in [check_motion]. *)
Definition parsed (outputs : nat -> string) (k : nat) : option Z :=
  Parse.search_motion (outputs k).

End Sampler.

(** The [{'x', 'y', 'length', 'height'}] dictionaries passed to [make_scene]. *)
Record rect := mkRect { rect_x : Q; rect_y : Q; rect_length : Q; rect_height : Q }.

(** Default [rect1] / [rect2] of [make_scene]. *)
Definition zero_rect : rect := mkRect 0 0 0 0.

(** ** Controller.ld_rect *)
Module LowDetail.

(** [self.mo_size_y = int(self.hor_res*0.1)], i.e. 384. *)
Definition mo_size_y : Z := hor_res / 10.
Definition box_motion_margin : Z := 100.

(** [int(math.sqrt((self.mo_size/2)**2 + (self.mo_size_y/2)**2))]: the
    radius of the motion object's bounding circle, truncated. *)
Definition radius_sq (mo_size : Q) : Q :=
  ((mo_size / 2) * (mo_size / 2)
   + (inject_Z mo_size_y / 2) * (inject_Z mo_size_y / 2))%Q.
Definition radius_int (mo_size : Q) : Z := Z.sqrt (Qfloor (radius_sq mo_size)).

(** [self.x_limit = self.hor_res/2 - int(...) - self.box_motion_margin]. *)
Definition x_limit (mo_size : Q) : Q :=
  (inject_Z hor_res / 2 - inject_Z (radius_int mo_size)
   - inject_Z box_motion_margin)%Q.

(** Index into [self.rects], [self.poss], [self.lengths]. *)
Inductive idx := R1 | R2.
Definition idx_num (i : idx) : Q := match i with R1 => 0%Q | R2 => 1%Q end.
Definition get {A} (i : idx) (p : A * A) : A :=
  match i with R1 => fst p | R2 => snd p end.
Definition set {A} (i : idx) (v : A) (p : A * A) : A * A :=
  match i with R1 => (v, snd p) | R2 => (fst p, v) end.

Record ld_state := mkLd {
  rects : rect * rect;
  poss : Q * Q;
  lengths : Q * Q;
  low_detail : Z;
  scenes : list (rect * rect)  (** [(rect1, rect2)] of every [make_scene] call *)
}.

Section LdRect.
(** [low_detail_of r1 r2]: [self.low_detail] after
    [make_scene(..., rect1=r1, rect2=r2)] and [pscc(5.0, 'detail')]. *)
Variable low_detail_of : rect -> rect -> Z.
Variables low_detail_target tolerance : Z.
Variable mo_size : Q.

Definition tune_rect (i : idx) (st : ld_state) : ld_state :=
  let r := mkRect (get i (poss st)) 0 (get i (lengths st)) (inject_Z ver_res) in
  let rs := set i r (rects st) in
  let rect1 := fst rs in
  let rect2 := snd rs in
  mkLd rs (poss st) (lengths st) (low_detail_of rect1 rect2)
    (scenes st ++ [(rect1, rect2)]).

Definition set_length (i : idx) (v : Q) (st : ld_state) : ld_state :=
  mkLd (rects st) (poss st) (set i v (lengths st)) (low_detail st) (scenes st).

Inductive bis_outcome :=
| BisDone (st : ld_state)
| BisNext (x1 x2 : Q) (st : ld_state).

(** One pass of the [while True] body of [bisection]. *)
Definition bisection_step (i : idx) (x1 x2 : Q) (st : ld_state) : bis_outcome :=
  let st := set_length i ((x2 + x1) / 2 - get i (poss st))%Q st in
  let st := tune_rect i st in
  let edge := (get i (lengths st) + get i (poss st))%Q in
  if low_detail st <? low_detail_target - tolerance then BisNext edge x2 st
  else if low_detail st >? low_detail_target + tolerance then BisNext x1 edge st
  else if Z.abs (low_detail st - low_detail_target) <=? tolerance then BisDone st
  else BisNext x1 x2 st.

(** Result of a run: the loop has exited, or the fuel ran out while it
    was still going (the state reached so far is kept). *)
Inductive ld_run :=
| LdFinished (st : ld_state)
| LdRunning (st : ld_state).

Definition run_state (r : ld_run) : ld_state :=
  match r with LdFinished st | LdRunning st => st end.

Fixpoint bisection_loop (fuel : nat) (i : idx) (x1 x2 : Q) (st : ld_state)
  : ld_run :=
  match fuel with
  | O => LdRunning st
  | S f =>
      match bisection_step i x1 x2 st with
      | BisDone st' => LdFinished st'
      | BisNext a b st' => bisection_loop f i a b st'
      end
  end.

(** Initial bounds: [x1 = self.poss[i]],
    [x2 = self.x_limit + i * (self.hor_res - self.x_limit)]. *)
Definition bisection_x1 (i : idx) (st : ld_state) : Q := get i (poss st).
Definition bisection_x2 (i : idx) : Q :=
  (x_limit mo_size + idx_num i * (inject_Z hor_res - x_limit mo_size))%Q.

Definition bisection (fuel : nat) (i : idx) (st : ld_state) : ld_run :=
  bisection_loop fuel i (bisection_x1 i st) (bisection_x2 i) st.

(** State set up by the body of [ld_rect] before [tune_rect(1)];
    [low0] is the [self.low_detail] left by earlier calls. *)
Definition ld_init (low0 : Z) : ld_state :=
  let xl := x_limit mo_size in
  let rect1_x_pos := 0%Q in
  let rect2_x_pos := (inject_Z hor_res - xl)%Q in
  let rect1 := mkRect rect1_x_pos 0 xl (inject_Z ver_res) in
  let rect2 := mkRect rect2_x_pos 0 0 (inject_Z ver_res) in
  mkLd (rect1, rect2) (rect1_x_pos, rect2_x_pos) (xl, 0%Q) low0 [].

Inductive ld_branch := Bisection2 | Bisection1 | Fulfilled | NoBranch.

(** Which branch [ld_rect] takes after [tune_rect(1)]. *)
Definition ld_branch_of (st : ld_state) : ld_branch :=
  if low_detail st <? low_detail_target - tolerance then Bisection2
  else if low_detail st >? low_detail_target + tolerance then Bisection1
  else if Z.abs (low_detail st - low_detail_target) <=? tolerance then Fulfilled
  else NoBranch.

Definition ld_rect (fuel : nat) (low0 : Z) : ld_run :=
  let st := tune_rect R1 (ld_init low0) in
  match ld_branch_of st with
  | Bisection2 => bisection fuel R2 st
  | Bisection1 => bisection fuel R1 st
  | Fulfilled | NoBranch => LdFinished st
  end.
End LdRect.

End LowDetail.

(** ** Controller.hd_delta *)
Module HighDetail.

Section HdDelta.
(** [high_detail_of f]: [self.high_detail] after [make_scene] with
    [fineness=f] (other parameters fixed) and [pscc(5.0, 'detail')]. *)
Variable high_detail_of : Z -> Z.
Variable high_detail_target : Z.

Definition delta_of (fineness : Z) : Z :=
  Z.abs (high_detail_of fineness - high_detail_target).

(** First [while True]: returns fineness, direction, delta and the list
    of finenesses a scene was made with. *)
Fixpoint probe_loop (fuel : nat) (fineness delta_i : Z) (trace : list Z)
  : option (Z * Z * Z * list Z) :=
  match fuel with
  | O => None
  | S f =>
      let fineness := fineness + 1 in
      let trace := trace ++ [fineness] in
      let delta := delta_of fineness in
      if delta >? delta_i then Some (fineness, -1, delta, trace)
      else if delta <? delta_i then Some (fineness, 1, delta, trace)
      else probe_loop f fineness delta_i trace
  end.

(** Second [while True]; the case [delta = previous_delta] matches no
    branch and the loop goes on. *)
Fixpoint descent_loop (fuel : nat) (fineness direction delta : Z)
  (trace : list Z) : option (Z * list Z) :=
  match fuel with
  | O => None
  | S f =>
      let fineness := fineness + direction in
      let previous_delta := delta in
      let trace := trace ++ [fineness] in
      let delta := delta_of fineness in
      if delta <? previous_delta then descent_loop f fineness direction delta trace
      else if delta >? previous_delta then Some (fineness - direction, trace)
      else descent_loop f fineness direction delta trace
  end.

(** [hd_delta] from [self.fineness] and [self.high_detail]; returns the
    final fineness, the direction and the finenesses tried. *)
Definition hd_delta (fuel : nat) (fineness high_detail : Z)
  : option (Z * Z * list Z) :=
  let delta_i := Z.abs (high_detail - high_detail_target) in
  match probe_loop fuel fineness delta_i [] with
  | None => None
  | Some (f, d, delta, tr) =>
      match descent_loop fuel f d delta tr with
      | None => None
      | Some (f', tr') => Some (f', d, tr')
      end
  end.
End HdDelta.

End HighDetail.

(** ** Datapath.make_scene, play_scene, pscc: the commands issued *)
Module Scene.

(** Python [range(start, stop, step)] for [step > 0]. *)
Fixpoint range_aux (n : nat) (start step : Z) : list Z :=
  match n with
  | O => []
  | S n' => start :: range_aux n' (start + step) step
  end.
Definition py_range (start stop step : Z) : list Z :=
  range_aux (Z.to_nat ((stop - start + step - 1) / step)) start step.

Definition bs : string := String (ascii_of_nat 92) EmptyString.   (** a backslash *)
Definition dq : string := String (ascii_of_nat 34) EmptyString.   (** a double quote *)

(** ["{}\\bw_frames\\{}.mp4".format(filepath, name)]. *)
Definition frames_file (filepath name : string) : string :=
  filepath ++ bs ++ "bw_frames" ++ bs ++ name ++ ".mp4".

Record scene_job := mkJob {
  frames : list (Z * Z);   (** [(theta, int(i/9))] of each [make_frame] call, in order *)
  framerate : Z;           (** [ffmpeg.input(..., framerate=50)] *)
  encoded : string;        (** output of the encoding step *)
  stream_loop : Z;         (** [-stream_loop 1000] *)
  trim : Z * Z;            (** [-t 03:00]: minutes, seconds *)
  loop_input : string;     (** [-i] of the looping step *)
  out_file : string        (** output of the looping step *)
}.

(** The frames, encodings and files produced by
    [make_scene(..., name=name)]. *)
Definition make_scene (filepath name : string) : scene_job :=
  mkJob
    (map (fun i => (i, Z.quot i 9)) (py_range 0 181 9))
    50
    (frames_file filepath "video")
    1000
    (3, 0)
    (frames_file filepath "video")
    (frames_file filepath name).

(** ['ffplay -fs -loglevel fatal -autoexit "{}"'] around a path. *)
Definition ffplay_cmd (path : string) : string :=
  "ffplay -fs -loglevel fatal -autoexit " ++ dq ++ path ++ dq.

Definition play_scene (filepath : string) : string :=
  ffplay_cmd (filepath ++ bs ++ "bw_frames" ++ bs ++ "scene.mp4").

Inductive effect :=
| Spawn (cmd : string)      (** [subprocess.Popen(cmd)] *)
| Sleep (t : Q)             (** [time.sleep(t)] *)
| CaptureFrame              (** [self.capture_frames()] *)
| CheckDetail               (** [self.check_detail()] *)
| CheckMotion               (** [self.check_motion()] *)
| PrintExit.                (** [print(...)]; [sys.exit()] *)

Definition pscc (filepath : string) (wait_time : Q) (parameter : string)
  : list effect :=
  Spawn (play_scene filepath) :: Sleep wait_time ::
  (if String.eqb parameter "detail" then [CaptureFrame; CheckDetail]
   else if String.eqb parameter "motion" then [CheckMotion]
   else [PrintExit]).

End Scene.

(** ** make_frame's draw_rect, on an ARGB32 surface *)
Module Render.

(** A premultiplied ARGB32 pixel, channels in [0, 255]. *)
Record pixel := mkPixel { px_r : Z; px_g : Z; px_b : Z; px_a : Z }.
Definition image := Z -> Z -> pixel.

(** 8-bit arithmetic of the compositor: [MUL_UN8] and saturating [ADD_UN8]. *)
Definition mul_un8 (a b : Z) : Z :=
  let t := a * b + 128 in Z.shiftr (Z.shiftr t 8 + t) 8.
Definition add_un8 (a b : Z) : Z := Z.min 255 (a + b).

(** Length of [[lo, hi]] inside the pixel span [[i, i+1]]. *)
Definition overlap (lo hi : Q) (i : Z) : Q :=
  Qmax 0 (Qmin hi (inject_Z i + 1) - Qmax lo (inject_Z i)).

(** Area of pixel [(i, j)] covered by the rectangle (negative sizes
    normalised as [context.rectangle] does). *)
Definition coverage (r : rect) (i j : Z) : Q :=
  let x0 := Qmin (rect_x r) (rect_x r + rect_length r) in
  let x1 := Qmax (rect_x r) (rect_x r + rect_length r) in
  let y0 := Qmin (rect_y r) (rect_y r + rect_height r) in
  let y1 := Qmax (rect_y r) (rect_y r + rect_height r) in
  overlap x0 x1 i * overlap y0 y1 j.

(** Coverage as an 8-bit mask value. *)
Definition coverage8 (r : rect) (i j : Z) : Z :=
  Qfloor (coverage r i j * 255 + (1 # 2)).

(** [OVER] of a source channel [s] with alpha [sa] through mask [m]. *)
Definition over_channel (sa s d m : Z) : Z :=
  add_un8 (mul_un8 s m) (mul_un8 d (255 - mul_un8 sa m)).

(** [context.rectangle(...)]; [context.set_source_rgb(...)]; [context.fill()],
    under the identity transformation (the [rect1] and [rect2] calls; the
    motion object's call after [translate]/[rotate] is not covered). *)
Definition draw_rect (rect_info : rect) (color : pixel) (img : image) : image :=
  fun i j =>
    let m := coverage8 rect_info i j in
    let d := img i j in
    let sa := px_a color in
    mkPixel (over_channel sa (px_r color) (px_r d) m)
            (over_channel sa (px_g color) (px_g d) m)
            (over_channel sa (px_b color) (px_b d) m)
            (over_channel sa sa (px_a d) m).

(** [color_grey]: [set_source_rgb(0.5, 0.5, 0.5)] in 8 bits. *)
Definition color_grey : pixel := mkPixel 128 128 128 255.

(** [make_frame] with the background pattern already painted
    ([background]) and the rotated motion object drawn by [draw_motion]:
    [draw_rect(rect1, color_grey)], [draw_rect(rect2, color_grey)], then
    the motion object. *)
Definition make_frame (background : image) (draw_motion : image -> image)
  (rect1 rect2 : rect) : image :=
  draw_motion (draw_rect rect2 color_grey (draw_rect rect1 color_grey background)).

(** The same frame with no auxiliary rectangle drawn. *)
Definition make_frame_no_rects (background : image)
  (draw_motion : image -> image) : image :=
  draw_motion background.

Definition channel_ok (v : Z) : Prop := 0 <= v <= 255.
Definition pixel_ok (p : pixel) : Prop :=
  channel_ok (px_r p) /\ channel_ok (px_g p) /\ channel_ok (px_b p)
  /\ channel_ok (px_a p).
Definition image_ok (img : image) : Prop := forall i j, pixel_ok (img i j).

End Render.

(** ** Concrete inputs used by the examples below *)

(** A motion score that is non-decreasing in the object size. *)
Definition step_score (q : Q) : Z := if Qle_bool q 1000 then 1 else 9.

(** Device readings of 'ms': nine 1s, a 0, then 5 from the 11th poll on;
    the last ten readings first agree at the 20th poll. *)
Definition stabilise_at_20 (k : nat) : option Z :=
  Some (if (k <? 9)%nat then 1 else if (k =? 9)%nat then 0 else 5).

Definition reading_value (r : option Z) : Z :=
  match r with Some v => v | None => 0 end.

(** High-detail score as a function of fineness; the +1 probe from 9 gives
    the same distance to the target 60 as fineness 9 itself. *)
Definition hs_tie (f : Z) : Z :=
  match f with
  | 6 => 57 | 7 => 58 | 8 => 57 | 9 => 55 | 10 => 55 | 11 => 53 | _ => 40
  end.

(** The claim's reading of [hd_delta]'s probes: one step of +1 from
    [f0], then steps of a single direction [d]. *)
Definition spec_hd_trace_shape (f0 : Z) (tr : list Z) : Prop :=
  exists d, (d = 1 \/ d = -1) /\
    forall i, (i < List.length tr)%nat -> nth i tr 0 = f0 + 1 + Z.of_nat i * d.

(** An all-white ARGB32 frame. *)
Definition white_image : Render.image := fun _ _ => Render.mkPixel 255 255 255 255.

(** ** Predicates used in the statements below *)

(** All elements of a list are equal. *)
Definition all_equal (l : list Z) : Prop := forall x y, In x l -> In y l -> x = y.

(** [self.motion_list] after [n] polls whose outputs all held a score. *)
Definition polled (readings : nat -> option Z) (n : nat) : list Z :=
  map (fun k => reading_value (readings k)) (seq 0 n).

(** Python's [str(n)] for [n >= 0]: decimal digits, most significant
    first ([dec_aux] peels the last digit with [fuel] bounding the number
    of digits). *)
Fixpoint dec_aux (fuel : nat) (n : Z) (acc : string) : string :=
  match fuel with
  | O => acc
  | S f =>
      let acc' := String (ascii_of_nat (48 + Z.to_nat (n mod 10))) acc in
      if n <? 10 then acc' else dec_aux f (n / 10) acc'
  end.
Definition py_str (n : Z) : string := dec_aux (S (Z.to_nat n)) n EmptyString.

(** No character of [s] is [c]. *)
(** Some position of [pre], followed by [s], starts the text [lit]. *)
Fixpoint label_starts_in (lit pre s : string) : bool :=
  match pre with
  | EmptyString => false
  | String a pre' => prefix lit (String a (pre' ++ s)) || label_starts_in lit pre' s
  end.

(** Pixel [(i, j)] (the square [[i, i+1] x [j, j+1]]) lies outside, or
    wholly inside, the rectangle normalised as [context.rectangle] does. *)
Definition pixel_outside (r : rect) (i j : Z) : Prop :=
  let x0 := Qmin (rect_x r) (rect_x r + rect_length r) in
  let x1 := Qmax (rect_x r) (rect_x r + rect_length r) in
  let y0 := Qmin (rect_y r) (rect_y r + rect_height r) in
  let y1 := Qmax (rect_y r) (rect_y r + rect_height r) in
  (x1 <= inject_Z i \/ inject_Z i + 1 <= x0 \/ y1 <= inject_Z j \/ inject_Z j + 1 <= y0)%Q.
Definition pixel_inside (r : rect) (i j : Z) : Prop :=
  let x0 := Qmin (rect_x r) (rect_x r + rect_length r) in
  let x1 := Qmax (rect_x r) (rect_x r + rect_length r) in
  let y0 := Qmin (rect_y r) (rect_y r + rect_height r) in
  let y1 := Qmax (rect_y r) (rect_y r + rect_height r) in
  (x0 <= inject_Z i /\ inject_Z i + 1 <= x1 /\ y0 <= inject_Z j /\ inject_Z j + 1 <= y1)%Q.

(** ** The scenario procedures of Controller *)
Module Scenarios.

(** *** high_detail_scenes, after [hd_delta] and the re-measure *)

(** The [if/elif/elif] that sets [hs_pass]; [HsUnset] is the case where
    no branch runs and [hs_pass] is never assigned. *)
Inductive hs_verdict := HsMeets | HsHigher | HsLower | HsUnset.

Definition hs_verdict_of (high_detail high_detail_target tolerance : Z) : hs_verdict :=
  if Z.abs (high_detail - high_detail_target) <=? tolerance then HsMeets
  else if high_detail >? high_detail_target + tolerance then HsHigher
  else if high_detail <? high_detail_target - tolerance then HsLower
  else HsUnset.

(** [self.rect1_x_pos = int(self.hor_res*0.1)]: [3840*0.1] rounds to
    [384.0] in binary64, so this is 384. *)
Definition rect1_x_pos : Z := hor_res / 10.

(** [self.x_limit = self.hor_res/2 - int(math.sqrt(...)) -
    self.box_motion_margin - self.rect1_x_pos]. *)
Definition hd_x_limit (mo_size : Q) : Q :=
  (inject_Z hor_res / 2 - inject_Z (LowDetail.radius_int mo_size)
   - inject_Z LowDetail.box_motion_margin - inject_Z rect1_x_pos)%Q.

Inductive box_end := BoxLowExceeded | BoxMet.

Inductive box_outcome :=
| BoxStop (e : box_end) (rect1 : rect)
| BoxNext (x1 x2 : Q) (rect1 : rect).

Section HdBox.
(** [high_of r] and [low_of r]: the scores read by [pscc(5.0, 'detail')]
    after [make_scene(mo_size, fineness, rect1=r)]. *)
Variables high_of low_of : rect -> Z.
Variables high_detail_target low_detail_target tolerance : Z.

(** One pass of the [while True] loop under [if (not hs_pass):]. *)
Definition box_step (x1 x2 : Q) : box_outcome :=
  let length_1 := ((x2 + x1) / 2 - inject_Z rect1_x_pos)%Q in
  let rect1 := mkRect (inject_Z rect1_x_pos) 0 length_1 (inject_Z ver_res) in
  let high_detail := high_of rect1 in
  let low_detail := low_of rect1 in
  if low_detail >=? low_detail_target then BoxStop BoxLowExceeded rect1
  else if high_detail <? high_detail_target - tolerance
  then BoxNext x1 (length_1 + inject_Z rect1_x_pos)%Q rect1
  else if high_detail >? high_detail_target + tolerance
  then BoxNext (length_1 + inject_Z rect1_x_pos)%Q x2 rect1
  else if Z.abs (high_detail - high_detail_target) <=? tolerance
  then BoxStop BoxMet rect1
  else BoxNext x1 x2 rect1.

(** The loop; returns how it ended, the last [self.rect1] and every
    [rect1] a scene was made with. *)
Fixpoint box_loop (fuel : nat) (x1 x2 : Q) (tried : list rect)
  : option (box_end * rect * list rect) :=
  match fuel with
  | O => None
  | S f =>
      match box_step x1 x2 with
      | BoxStop e r => Some (e, r, tried ++ [r])
      | BoxNext a b r => box_loop f a b (tried ++ [r])
      end
  end.
End HdBox.

(** From the verdict on, with [high_of g r] and [low_of g r] the scores
    of the scene at fineness [g] with [rect1 = r]: the fineness and
    [rect1] of the final [make_scene(..., name='high_N%')], and the
    [rect1] values tried.  [self.rect1] was set to the zero rectangle at
    the start of [high_detail_scenes] and nothing before changes it. *)
Definition high_detail_tail (high_of low_of : Z -> rect -> Z) (tolerance : Z)
  (mo_size : Q) (fuel : nat) (fineness : Z) : option (Z * rect * list rect) :=
  let box (g : Z) :=
    match box_loop (high_of g) (low_of g) 60 30 tolerance fuel
            (inject_Z rect1_x_pos) (hd_x_limit mo_size) [] with
    | Some (_, r, tried) => Some (g, r, tried)
    | None => None
    end in
  match hs_verdict_of (high_of fineness zero_rect) 60 tolerance with
  | HsMeets => Some (fineness, zero_rect, [])
  | HsHigher => box fineness
  | HsLower => box (fineness - 1)
  | HsUnset => None
  end.

(** *** low_detail_scenes: the fineness loop *)
Section LowFineness.
(** [high_of f]: the high-detail score of the scene made with fineness
    [f] and no rectangles. *)
Variable high_of : Z -> Z.
Variable high_detail_target : Z.

(** [while True: pscc; if hs >= target: fineness += 1; make_scene
    elif hs < target: fineness += 1; make_scene; break]; returns the
    final [self.fineness]. *)
Fixpoint low_fineness_loop (fuel : nat) (fineness : Z) : option Z :=
  match fuel with
  | O => None
  | S f =>
      if high_of fineness >=? high_detail_target
      then low_fineness_loop f (fineness + 1)
      else if high_of fineness <? high_detail_target then Some (fineness + 1)
      else low_fineness_loop f fineness
  end.
End LowFineness.

(** *** medium_detail_scenes, from [hd_delta] on *)

Record scene_params := mkParams {
  sp_fineness : Z; sp_rect1 : rect; sp_rect2 : rect }.

(** [make_scene(..., name=name)] and [pscc(...)], which plays
    [bw_frames\scene.mp4]. *)
Inductive call :=
| MakeScene (name : string) (p : scene_params)
| Pscc.

(** For each [pscc] in [calls], the parameters of the scene in
    [scene.mp4] at that point. *)
Fixpoint played (calls : list call) (scene : option scene_params)
  : list (option scene_params) :=
  match calls with
  | [] => []
  | MakeScene name p :: cs =>
      played cs (if String.eqb name "scene" then Some p else scene)
  | Pscc :: cs => scene :: played cs scene
  end.

(** Each pass of [hd_delta] makes a scene with [self.fineness],
    [self.rect1], [self.rect2] and the default name, then plays it. *)
Definition hd_delta_calls (rect1 rect2 : rect) (tried : list Z) : list call :=
  flat_map (fun f => [MakeScene "scene" (mkParams f rect1 rect2); Pscc]) tried.

(** [self.hd_delta()], [self.make_scene(..., name='medium_N%')],
    [self.pscc(5.0, 'detail')]; returns the final fineness and the calls. *)
Definition medium_detail_tail (high_of : Z -> Z) (high_detail_target : Z)
  (fuel : nat) (fineness high_detail : Z) (rect1 rect2 : rect)
  (motion_target : Z) : option (Z * list call) :=
  match HighDetail.hd_delta high_of high_detail_target fuel fineness high_detail with
  | None => None
  | Some (ff, _, tried) =>
      Some (ff, hd_delta_calls rect1 rect2 tried
                ++ [MakeScene ("medium_" ++ py_str motion_target ++ "%")
                      (mkParams ff rect1 rect2); Pscc])
  end.

End Scenarios.

(** ** Concrete inputs for the scenario examples *)

(** High-detail scores that cross the target between fineness 9 and 10
    and stay at the same distance from it afterwards. *)
Definition hs_cross (f : Z) : Z := if f <? 10 then 70 else 50.

(** Scores of a box scene that fall with the box length. *)
Definition hd_box_high (g : Z) (r : rect) : Z := 70 - Qfloor (rect_length r) / 50.
Definition hd_box_low (g : Z) (r : rect) : Z := 10.


(** * Properties *)

(** ** make_motion *)
Module MotionFacts.
Import Motion.

Section Facts.
Variable score : Q -> Z.
Variable t : Z.

Definition monotone : Prop := forall p q : Q, (p <= q)%Q -> score p <= score q.

Lemma step_cases (x1 x2 : Q) :
  let m := ((x1 + x2) / 2)%Q in
  (score m = t /\ make_motion_step score t x1 x2 = Done m)
  \/ (score m > t /\ make_motion_step score t x1 x2 = Next x1 m)
  \/ (score m < t /\ make_motion_step score t x1 x2 = Next m x2).
Proof.
  intro m; unfold make_motion_step; fold m.
  destruct (Z.eqb_spec (score m) t) as [E|E]; [left; auto|].
  destruct (Z.gtb_spec (score m) t) as [G|G]; [right; left; split; auto; lia|].
  destruct (Z.ltb_spec (score m) t) as [L|L]; [right; right; auto|lia].
Qed.

Lemma loop_some_hits_target (fuel : nat) :
  forall x1 x2 m, make_motion_loop score t fuel x1 x2 = Some m -> score m = t.
Proof.
  induction fuel as [|f IH]; intros x1 x2 m H; simpl in H; [discriminate|].
  destruct (step_cases x1 x2) as [[E S]|[[E S]|[E S]]]; rewrite S in H.
  - injection H as <-; exact E.
  - exact (IH _ _ _ H).
  - exact (IH _ _ _ H).
Qed.

Lemma two_pow_nonzero (n : nat) : ~ (inject_Z (2 ^ Z.of_nat n) == 0)%Q.
Proof.
  change 0%Q with (inject_Z 0); rewrite inject_Z_injective.
  apply Z.pow_nonzero; lia.
Qed.

Lemma step_halves (x1 x2 a b : Q) :
  make_motion_step score t x1 x2 = Next a b ->
  (b - a == (x2 - x1) / 2)%Q
  /\ (monotone -> forall s, score s = t -> (x1 <= s <= x2)%Q -> (a <= s <= b)%Q).
Proof.
  intro H.
  destruct (step_cases x1 x2) as [[E S]|[[E S]|[E S]]]; rewrite S in H;
    [discriminate| |]; injection H as <- <-; split.
  - field.
  - intros Mono s Hs [H1 H2]; split; [exact H1|].
    apply Qnot_lt_le; intro Hlt.
    pose proof (Mono _ _ (Qlt_le_weak _ _ Hlt)); lia.
  - field.
  - intros Mono s Hs [H1 H2]; split; [|exact H2].
    apply Qnot_lt_le; intro Hlt.
    pose proof (Mono _ _ (Qlt_le_weak _ _ Hlt)); lia.
Qed.

Lemma bounds_width (n : nat) :
  forall x1 x2 a b, make_motion_bounds score t n x1 x2 = Some (a, b) ->
  (b - a == (x2 - x1) / inject_Z (2 ^ Z.of_nat n))%Q.
Proof.
  induction n as [|n IH]; intros x1 x2 a b H; simpl in H.
  - injection H as <- <-. simpl. field.
  - destruct (make_motion_step score t x1 x2) as [m|a0 b0] eqn:S; [discriminate|].
    rewrite (IH _ _ _ _ H), (proj1 (step_halves _ _ _ _ S)).
    rewrite Nat2Z.inj_succ, Z.pow_succ_r by lia; rewrite inject_Z_mult.
    pose proof (two_pow_nonzero n). field. auto.
Qed.

Lemma bounds_contain (n : nat) :
  monotone -> forall s, score s = t ->
  forall x1 x2 a b, make_motion_bounds score t n x1 x2 = Some (a, b) ->
  (x1 <= s <= x2)%Q -> (a <= s <= b)%Q.
Proof.
  intros Mono s Hs; induction n as [|n IH]; intros x1 x2 a b H Hin; simpl in H.
  - injection H as <- <-; exact Hin.
  - destruct (make_motion_step score t x1 x2) as [m|a0 b0] eqn:S; [discriminate|].
    exact (IH _ _ _ _ H (proj2 (step_halves _ _ _ _ S) Mono s Hs Hin)).
Qed.
End Facts.

End MotionFacts.


(** C1: [make_motion] bisects [mo_size] over [[0, hor_res]] with
    [hor_res = 3840]; each pass samples the midpoint [(x1+x2)/2], stops when
    the motion score equals the target, moves [x2] to the midpoint when the
    score is above the target and [x1] when it is below.  Any result it
    returns has a score exactly equal to the target, and when no size hits
    the target exactly (for instance every score is one away from it) the
    loop never stops: there is no tolerance band. *)
Theorem make_motion_exact_bisection (score : Q -> Z) (t : Z) :
  hor_res = 3840 /\
  (forall fuel, Motion.make_motion score t fuel
                = Motion.make_motion_loop score t fuel 0 (inject_Z hor_res)) /\
  (forall x1 x2, let m := ((x1 + x2) / 2)%Q in
     (score m = t -> Motion.make_motion_step score t x1 x2 = Motion.Done m) /\
     (score m > t -> Motion.make_motion_step score t x1 x2 = Motion.Next x1 m) /\
     (score m < t -> Motion.make_motion_step score t x1 x2 = Motion.Next m x2)) /\
  (forall fuel m, Motion.make_motion score t fuel = Some m -> score m = t) /\
  ((forall q, score q <> t) -> forall fuel, Motion.make_motion score t fuel = None).
Proof.
  split; [reflexivity|]. split; [reflexivity|]. split; [|split].
  - intros x1 x2 m.
    destruct (MotionFacts.step_cases score t x1 x2) as [[E S]|[[E S]|[E S]]];
      fold m in E, S; repeat split; intro H; auto; lia.
  - intros fuel m H. exact (MotionFacts.loop_some_hits_target score t fuel _ _ _ H).
  - intros Hne fuel. destruct (Motion.make_motion score t fuel) as [m|] eqn:E; auto.
    exfalso. exact (Hne m (MotionFacts.loop_some_hits_target score t fuel _ _ _ E)).
Qed.

Lemma make_motion_exact_bisection_witness :
  Motion.make_motion_step step_score 1 0 3840 = Motion.Next 0 ((0 + 3840) / 2)
  /\ Motion.make_motion (fun q => if Qle_bool q 1000 then 4 else 6) 5 30 = None.
Proof.
  split.
  - destruct (make_motion_exact_bisection step_score 1) as [_ [_ [H _]]].
    apply (proj1 (proj2 (H 0%Q 3840%Q))). vm_compute. reflexivity.
  - destruct (make_motion_exact_bisection (fun q => if Qle_bool q 1000 then 4 else 6) 5)
      as [_ [_ [_ [_ H]]]].
    apply H. intro q. destruct (Qle_bool q 1000); discriminate.
Defined.




(** ** ld_rect *)
Module LowDetailFacts.
Import LowDetail.

(** [lra] over [Q] after turning halvings into products by [1#2]. *)
Ltac qlra :=
  unfold Qdiv in *; change (Qinv 2) with (1#2) in *;
  repeat match goal with |- _ /\ _ => split end; lra.

Definition cx : Q := (inject_Z hor_res / 2)%Q.
Definition rect_lo (r : rect) : Q := Qmin (rect_x r) (rect_x r + rect_length r).
Definition rect_hi (r : rect) : Q := Qmax (rect_x r) (rect_x r + rect_length r).

(** The rectangle lies, horizontally, at least [radius + margin] away from
    the centre of rotation (left or right of it); as it spans the whole
    frame height this is what keeping clear of the bounding circle grown by
    [margin] means.  Written with squares, without a square root. *)
Definition clear_of (margin mo_size : Q) (r : rect) : Prop :=
  ((0 <= cx - rect_hi r - margin)
   /\ radius_sq mo_size <= (cx - rect_hi r - margin) * (cx - rect_hi r - margin))%Q
  \/ ((0 <= rect_lo r - cx - margin)
   /\ radius_sq mo_size <= (rect_lo r - cx - margin) * (rect_lo r - cx - margin))%Q.

Definition rect1_ok (xl : Q) (r : rect) : Prop :=
  (rect_x r == 0 /\ 0 <= rect_length r <= xl)%Q.
Definition rect2_ok (xl : Q) (r : rect) : Prop :=
  (rect_x r == inject_Z hor_res - xl /\ 0 <= rect_length r
   /\ rect_x r + rect_length r <= inject_Z hor_res)%Q.
Definition pair_ok (xl : Q) (p : rect * rect) : Prop :=
  rect1_ok xl (fst p) /\ rect2_ok xl (snd p).
Definition state_ok (xl : Q) (st : ld_state) : Prop :=
  poss st = (0%Q, (inject_Z hor_res - xl)%Q) /\ pair_ok xl (rects st)
  /\ Forall (pair_ok xl) (scenes st).
Definition bounds_ok (xl : Q) (i : idx) (x1 x2 : Q) : Prop :=
  match i with
  | R1 => (0 <= x1 /\ x1 <= x2 /\ x2 <= xl)%Q
  | R2 => (inject_Z hor_res - xl <= x1 /\ x1 <= x2 /\ x2 <= inject_Z hor_res)%Q
  end.

Lemma radius_sq_nonneg (mo : Q) : (0 <= radius_sq mo)%Q.
Proof. unfold radius_sq. nra. Qed.

Lemma radius_int_bounds (mo : Q) :
  (0 <= radius_int mo)%Z /\
  (inject_Z (radius_int mo) * inject_Z (radius_int mo) <= radius_sq mo)%Q /\
  (radius_sq mo < inject_Z (radius_int mo + 1) * inject_Z (radius_int mo + 1))%Q.
Proof.
  pose proof (radius_sq_nonneg mo) as H0.
  pose proof (Qfloor_le (radius_sq mo)) as Hf.
  pose proof (Qlt_floor (radius_sq mo)) as Hl.
  assert (Hfn : (0 <= Qfloor (radius_sq mo))%Z).
  { destruct (Z_lt_le_dec (Qfloor (radius_sq mo)) 0) as [Hneg|Hpos]; [exfalso|exact Hpos].
    assert (inject_Z (Qfloor (radius_sq mo) + 1) <= 0)%Q
      by (change 0%Q with (inject_Z 0); rewrite <- Zle_Qle; lia).
    lra. }
  destruct (Z.sqrt_spec _ Hfn) as [Lo Hi]; fold (radius_int mo) in Lo, Hi.
  split; [apply Z.sqrt_nonneg|split].
  - rewrite <- inject_Z_mult. eapply Qle_trans; [|exact Hf].
    rewrite <- Zle_Qle. exact Lo.
  - rewrite <- inject_Z_mult. eapply Qlt_le_trans; [exact Hl|].
    rewrite <- Zle_Qle. unfold Z.succ in Hi. lia.
Qed.

Lemma get_set {A} (i : idx) (v : A) (p : A * A) : get i (set i v p) = v.
Proof. destruct i; reflexivity. Qed.

Section Run.
Variable low_of : rect -> rect -> Z.
Variables t tol : Z.

Lemma step_ok (xl : Q) (i : idx) (x1 x2 : Q) (st : ld_state) :
  (0 <= xl)%Q -> state_ok xl st -> bounds_ok xl i x1 x2 ->
  match bisection_step low_of t tol i x1 x2 st with
  | BisDone s => state_ok xl s
  | BisNext a b s => state_ok xl s /\ bounds_ok xl i a b
  end.
Proof.
  intros Hxl [Hp [[R1ok R2ok] Hsc]] Hb.
  destruct st as [[r1 r2] ps ls low sc]; simpl in *; subst ps.
  unfold bisection_step, tune_rect, set_length; simpl.
  destruct i; simpl in Hb |- *.
  - set (m := ((x2 + x1) / 2)%Q).
    assert (Hok : state_ok xl (mkLd (mkRect 0 0 (m - 0) (inject_Z ver_res), r2)
               (0%Q, (inject_Z hor_res - xl)%Q) (m - 0, snd ls)%Q
               (low_of (mkRect 0 0 (m - 0) (inject_Z ver_res)) r2)
               (sc ++ [(mkRect 0 0 (m - 0) (inject_Z ver_res), r2)]))).
    { assert (P : pair_ok xl (mkRect 0 0 (m - 0) (inject_Z ver_res), r2)).
      { split; [|exact R2ok]. unfold rect1_ok, m; simpl. split; [reflexivity|qlra]. }
      split; [reflexivity|split; [exact P|]].
      apply Forall_app; split; [exact Hsc|constructor; [exact P|constructor]]. }
    repeat match goal with |- context [if ?c then _ else _] => destruct c end;
      first [exact Hok | split; [exact Hok | simpl; unfold m; repeat split; qlra]].
  - set (m := ((x2 + x1) / 2)%Q).
    set (p2 := (inject_Z hor_res - xl)%Q).
    set (nr := mkRect p2 0 (m - p2) (inject_Z ver_res)).
    assert (Hok : state_ok xl (mkLd (r1, nr) (0%Q, p2) (fst ls, m - p2)%Q
               (low_of r1 nr) (sc ++ [(r1, nr)]))).
    { assert (P : pair_ok xl (r1, nr)).
      { split; [exact R1ok|]. unfold rect2_ok, nr, m, p2; simpl.
        split; [reflexivity|qlra]. }
      split; [reflexivity|split; [exact P|]].
      apply Forall_app; split; [exact Hsc|constructor; [exact P|constructor]]. }
    repeat match goal with |- context [if ?c then _ else _] => destruct c end;
      first [exact Hok | split; [exact Hok | simpl; unfold m, p2; repeat split; qlra]].
Qed.

Lemma loop_ok (fuel : nat) :
  forall xl i x1 x2 st, (0 <= xl)%Q -> state_ok xl st -> bounds_ok xl i x1 x2 ->
  state_ok xl (run_state (bisection_loop low_of t tol fuel i x1 x2 st)).
Proof.
  induction fuel as [|f IH]; intros xl i x1 x2 st Hxl Hst Hb; simpl; [exact Hst|].
  pose proof (step_ok xl i x1 x2 st Hxl Hst Hb) as Hs.
  destruct (bisection_step low_of t tol i x1 x2 st) as [s|a b s]; [exact Hs|].
  destruct Hs as [Hs Hb']. exact (IH _ _ _ _ _ Hxl Hs Hb').
Qed.

Lemma ld_rect_ok (mo : Q) (fuel : nat) (low0 : Z) :
  (0 <= x_limit mo)%Q ->
  state_ok (x_limit mo) (run_state (ld_rect low_of t tol mo fuel low0)).
Proof.
  intro Hxl.
  assert (H1 : state_ok (x_limit mo) (tune_rect low_of R1 (ld_init mo low0))).
  { assert (P : pair_ok (x_limit mo)
      (mkRect 0 0 (x_limit mo) (inject_Z ver_res),
       mkRect (inject_Z hor_res - x_limit mo) 0 0 (inject_Z ver_res))).
    { split; unfold rect1_ok, rect2_ok; simpl; [split; [reflexivity|qlra]|].
      split; [reflexivity|qlra]. }
    split; [reflexivity|split; [exact P|]]. simpl. constructor; [exact P|constructor]. }
  unfold ld_rect, bisection.
  destruct (ld_branch_of t tol (tune_rect low_of R1 (ld_init mo low0))).
  - apply loop_ok; auto. simpl. unfold bisection_x2, idx_num. qlra.
  - apply loop_ok; auto. simpl. unfold bisection_x2, idx_num. qlra.
  - exact H1.
  - exact H1.
Qed.
End Run.

Lemma rect1_clear (mo : Q) (r : rect) :
  rect1_ok (x_limit mo) r -> clear_of 99 mo r.
Proof.
  intros [Hx [Hl Hu]]. left.
  destruct (radius_int_bounds mo) as [Hs0 [_ Hlt]].
  assert (Hhi : (rect_hi r <= x_limit mo)%Q).
  { unfold rect_hi. apply Q.max_lub; qlra. }
  rewrite inject_Z_plus in Hlt. change (inject_Z 1) with 1%Q in Hlt.
  assert (Hs : (0 <= inject_Z (radius_int mo))%Q)
    by (change 0%Q with (inject_Z 0); rewrite <- Zle_Qle; exact Hs0).
  assert (Hg : (inject_Z (radius_int mo) + 1 <= cx - rect_hi r - 99)%Q).
  { unfold cx, x_limit, hor_res, box_motion_margin in *.
    set (s := inject_Z (radius_int mo)) in *. clearbody s.
    unfold inject_Z in *. qlra. }
  split; [qlra|].
  apply Qlt_le_weak. eapply Qlt_le_trans; [exact Hlt|].
  apply Qmult_le_compat_nonneg; split; qlra.
Qed.

Lemma rect2_clear (mo : Q) (r : rect) :
  rect2_ok (x_limit mo) r -> clear_of 99 mo r.
Proof.
  intros [Hx [Hl Hu]]. right.
  destruct (radius_int_bounds mo) as [Hs0 [_ Hlt]].
  assert (Hlo : (inject_Z hor_res - x_limit mo <= rect_lo r)%Q).
  { unfold rect_lo. apply Q.min_glb; qlra. }
  rewrite inject_Z_plus in Hlt. change (inject_Z 1) with 1%Q in Hlt.
  assert (Hs : (0 <= inject_Z (radius_int mo))%Q)
    by (change 0%Q with (inject_Z 0); rewrite <- Zle_Qle; exact Hs0).
  assert (Hg : (inject_Z (radius_int mo) + 1 <= rect_lo r - cx - 99)%Q).
  { unfold cx, x_limit, hor_res, box_motion_margin in *.
    set (s := inject_Z (radius_int mo)) in *. clearbody s.
    unfold inject_Z in *. qlra. }
  split; [qlra|].
  apply Qlt_le_weak. eapply Qlt_le_trans; [exact Hlt|].
  apply Qmult_le_compat_nonneg; split; qlra.
Qed.

End LowDetailFacts.

(** C4: [ld_rect] first makes a scene with [rect1] alone at its maximum
    length [x_limit] ([rect2] has length 0) and reads the low-detail score;
    below [target - tolerance] it bisects [rect2]'s right edge over
    [[hor_res - x_limit, hor_res]], above [target + tolerance] it bisects
    [rect1]'s right edge over [[0, x_limit]]; in the bisection a pass ends
    the loop exactly when the measured score is within the tolerance.
    The tolerance is an acceptable deviation, so it is taken non-negative
    (with a negative one both tests can hold and the first wins). *)
Theorem ld_rect_search_shape (low_of : rect -> rect -> Z) (t tol : Z)
  (mo : Q) (low0 : Z) (Htol : 0 <= tol) :
  let st1 := LowDetail.tune_rect low_of LowDetail.R1 (LowDetail.ld_init mo low0) in
  LowDetail.rects st1
    = (mkRect 0 0 (LowDetail.x_limit mo) (inject_Z ver_res),
       mkRect (inject_Z hor_res - LowDetail.x_limit mo) 0 0 (inject_Z ver_res)) /\
  LowDetail.scenes st1 = [LowDetail.rects st1] /\
  LowDetail.low_detail st1
    = low_of (fst (LowDetail.rects st1)) (snd (LowDetail.rects st1)) /\
  (LowDetail.low_detail st1 < t - tol -> forall fuel,
     LowDetail.ld_rect low_of t tol mo fuel low0
     = LowDetail.bisection_loop low_of t tol fuel LowDetail.R2
         (inject_Z hor_res - LowDetail.x_limit mo) (LowDetail.bisection_x2 mo LowDetail.R2) st1
     /\ (LowDetail.bisection_x2 mo LowDetail.R2 == inject_Z hor_res)%Q) /\
  (LowDetail.low_detail st1 > t + tol -> forall fuel,
     LowDetail.ld_rect low_of t tol mo fuel low0
     = LowDetail.bisection_loop low_of t tol fuel LowDetail.R1
         0 (LowDetail.bisection_x2 mo LowDetail.R1) st1
     /\ (LowDetail.bisection_x2 mo LowDetail.R1 == LowDetail.x_limit mo)%Q) /\
  (forall i x1 x2 st,
     match LowDetail.bisection_step low_of t tol i x1 x2 st with
     | LowDetail.BisDone s => Z.abs (LowDetail.low_detail s - t) <= tol
     | LowDetail.BisNext _ _ s => tol < Z.abs (LowDetail.low_detail s - t)
     end) /\
  (forall fuel i x1 x2 st s,
     LowDetail.bisection_loop low_of t tol fuel i x1 x2 st = LowDetail.LdFinished s ->
     Z.abs (LowDetail.low_detail s - t) <= tol).
Proof.
  intro st1.
  assert (Step : forall i x1 x2 st,
     match LowDetail.bisection_step low_of t tol i x1 x2 st with
     | LowDetail.BisDone s => Z.abs (LowDetail.low_detail s - t) <= tol
     | LowDetail.BisNext _ _ s => tol < Z.abs (LowDetail.low_detail s - t)
     end).
  { intros i x1 x2 st. unfold LowDetail.bisection_step.
    set (s := LowDetail.tune_rect low_of i _).
    destruct (Z.ltb_spec (LowDetail.low_detail s) (t - tol)); [lia|].
    destruct (Z.gtb_spec (LowDetail.low_detail s) (t + tol)); [lia|].
    destruct (Z.leb_spec (Z.abs (LowDetail.low_detail s - t)) tol); lia. }
  split; [reflexivity|]. split; [reflexivity|]. split; [reflexivity|].
  split; [|split; [|split; [exact Step|]]].
  - intros Hlt fuel. unfold LowDetail.ld_rect, LowDetail.ld_branch_of. fold st1.
    destruct (Z.ltb_spec (LowDetail.low_detail st1) (t - tol)); [|lia].
    split; [reflexivity|]. unfold LowDetail.bisection_x2, LowDetail.idx_num.
    ring.
  - intros Hgt fuel. unfold LowDetail.ld_rect, LowDetail.ld_branch_of. fold st1.
    destruct (Z.ltb_spec (LowDetail.low_detail st1) (t - tol)); [lia|].
    destruct (Z.gtb_spec (LowDetail.low_detail st1) (t + tol)); [|lia].
    split; [reflexivity|]. unfold LowDetail.bisection_x2, LowDetail.idx_num.
    ring.
  - intro fuel; induction fuel as [|f IH]; intros i x1 x2 st s H; simpl in H;
      [discriminate|].
    pose proof (Step i x1 x2 st) as Hs.
    destruct (LowDetail.bisection_step low_of t tol i x1 x2 st) as [s'|a b s'].
    + injection H as <-. exact Hs.
    + exact (IH _ _ _ _ _ H).
Qed.

Lemma ld_rect_search_shape_witness :
  let st1 := LowDetail.tune_rect (fun _ _ => 20) LowDetail.R1 (LowDetail.ld_init 1920 0) in
  LowDetail.ld_rect (fun _ _ => 20) 30 2 1920 5 0
  = LowDetail.bisection_loop (fun _ _ => 20) 30 2 5 LowDetail.R2
      (inject_Z hor_res - LowDetail.x_limit 1920)
      (LowDetail.bisection_x2 1920 LowDetail.R2) st1.
Proof.
  intro st1.
  destruct (ld_rect_search_shape (fun _ _ => 20) 30 2 1920 0 ltac:(lia))
    as [_ [_ [_ [H2 _]]]].
  apply (proj1 (H2 ltac:(vm_compute; reflexivity) 5%nat)).
Defined.

(** C8 as stated fails: for a motion object of size 1920 the very first
    scene made by [ld_rect] has [rect1] reaching to [x_limit = 841], and
    the circle of radius [sqrt(960^2 + 192^2) > 979] grown by 100 pixels
    starts left of 841, because [x_limit] uses the truncated radius. *)
Lemma ld_rect_margin_counterexample :
  Exists (fun p => ~ LowDetailFacts.clear_of 100 1920 (fst p))
    (LowDetail.scenes (LowDetail.run_state
       (LowDetail.ld_rect (fun _ _ => 30) 30 2 1920 10 0))).
Proof.
  let l := eval vm_compute in (LowDetail.scenes (LowDetail.run_state
       (LowDetail.ld_rect (fun _ _ => 30) 30 2 1920 10 0))) in
  change (LowDetail.scenes (LowDetail.run_state
       (LowDetail.ld_rect (fun _ _ => 30) 30 2 1920 10 0))) with l.
  apply Exists_cons_hd. simpl fst. unfold LowDetailFacts.clear_of.
  intros [[_ H]|[H _]]; vm_compute in H; apply H; reflexivity.
Qed.

(** C8 (amended): [x_limit] is [hor_res/2] minus the radius of the motion
    object's bounding circle truncated to an integer ([int(math.sqrt(..))])
    minus the 100-pixel margin.  Whenever [x_limit >= 0], every pair
    [(rect1, rect2)] that [ld_rect] passes to [make_scene] has [rect1]
    inside [[0, x_limit]] and [rect2] starting at [hor_res - x_limit] and
    ending by [hor_res]; each of them is at least [radius + 99] pixels
    away horizontally from the centre of rotation, so it never overlaps the
    bounding circle, but the gap can fall short of [radius + 100] by the
    fractional part of the radius. *)
Theorem ld_rect_rects_clear (low_of : rect -> rect -> Z) (t tol : Z)
  (mo : Q) (fuel : nat) (low0 : Z)
  (Hx : (0 <= LowDetail.x_limit mo)%Q) :
  LowDetail.x_limit mo
    = (inject_Z hor_res / 2 - inject_Z (LowDetail.radius_int mo)
       - inject_Z LowDetail.box_motion_margin)%Q /\
  (inject_Z (LowDetail.radius_int mo) * inject_Z (LowDetail.radius_int mo)
     <= LowDetail.radius_sq mo)%Q /\
  (LowDetail.radius_sq mo
     < inject_Z (LowDetail.radius_int mo + 1) * inject_Z (LowDetail.radius_int mo + 1))%Q /\
  Forall (fun p =>
      LowDetailFacts.rect1_ok (LowDetail.x_limit mo) (fst p)
      /\ LowDetailFacts.rect2_ok (LowDetail.x_limit mo) (snd p)
      /\ LowDetailFacts.clear_of 99 mo (fst p)
      /\ LowDetailFacts.clear_of 99 mo (snd p))
    (LowDetail.scenes (LowDetail.run_state (LowDetail.ld_rect low_of t tol mo fuel low0))).
Proof.
  destruct (LowDetailFacts.radius_int_bounds mo) as [_ [Lo Hi]].
  split; [reflexivity|split; [exact Lo|split; [exact Hi|]]].
  destruct (LowDetailFacts.ld_rect_ok low_of t tol mo fuel low0 Hx) as [_ [_ Hsc]].
  eapply Forall_impl; [|exact Hsc].
  intros p [H1 H2].
  exact (conj H1 (conj H2 (conj (LowDetailFacts.rect1_clear mo _ H1)
                                (LowDetailFacts.rect2_clear mo _ H2)))).
Qed.

Lemma ld_rect_rects_clear_witness :
  Forall (fun p => LowDetailFacts.clear_of 99 1920 (fst p)
                   /\ LowDetailFacts.clear_of 99 1920 (snd p))
    (LowDetail.scenes (LowDetail.run_state
       (LowDetail.ld_rect (fun r1 r2 => 20) 30 2 1920 10 0))).
Proof.
  destruct (ld_rect_rects_clear (fun r1 r2 => 20) 30 2 1920 10 0
              ltac:(vm_compute; discriminate)) as [_ [_ [_ H]]].
  eapply Forall_impl; [|exact H]. intros p Hp. split; apply Hp.
Defined.

(** C2 fails on this input: the readings' last ten values first agree at
    the 20th poll, where [check_motion] takes the [len == 20] branch before
    any variance test and returns [int(mean)] of all 20 readings, 2,
    instead of the stable value 5. *)
Theorem check_motion_stable_at_twentieth_sample :
  let samples := map (fun k => reading_value (stabilise_at_20 k)) (seq 0 20) in
  Qeq_bool (Sampler.np_var (Sampler.lastn 10 samples)) 0 = true /\
  last samples 0 = 5 /\
  forallb (fun n => negb (Qeq_bool (Sampler.np_var (Sampler.lastn 10 (firstn n samples))) 0))
    (seq 10 10) = true /\
  Sampler.check_motion stabilise_at_20 20 = Some (Sampler.MotionScore 2) /\
  Sampler.check_motion stabilise_at_20 100 = Some (Sampler.MotionScore 2).
Proof. vm_compute. repeat split; reflexivity. Qed.

(** C3 as stated fails: an output of [detail] with neither pattern leaves
    the stored scores in place and [check_detail] succeeds. *)
Lemma check_detail_absent_counterexample :
  Parse.search_high "HighDetail: n/a" = None /\
  Parse.search_low "HighDetail: n/a" = None /\
  Detail.check_detail (Some "HighDetail: n/a"%string) (Detail.mkDetail 42 17)
  = Detail.DetailOk (Detail.mkDetail 42 17).
Proof. vm_compute. repeat split; reflexivity. Qed.

(** C3 (amended): [check_detail] never fails on a missing pattern: when
    'HighDetail: N%' (resp. 'LowDetail: N%') is absent it keeps the
    previously stored high (resp. low) score and stores the other score
    if that pattern is found (else keeps it too); with both found it
    stores both; it
    only exits when the [detail] executable is missing.  [check_motion],
    at any poll whose device output lacks '30s: N percent', raises (the
    [.group] of [None]) and stores no motion score. *)
Theorem score_extraction_absent_pattern :
  (forall out st, Parse.search_high out = None ->
     Detail.check_detail (Some out) st
     = Detail.DetailOk (Detail.mkDetail (Detail.high_detail st)
         (match Parse.search_low out with
          | Some l => l | None => Detail.low_detail st end))) /\
  (forall out st, Parse.search_low out = None ->
     Detail.check_detail (Some out) st
     = Detail.DetailOk (Detail.mkDetail
         (match Parse.search_high out with
          | Some h => h | None => Detail.high_detail st end)
         (Detail.low_detail st))) /\
  (forall out st h l, Parse.search_high out = Some h -> Parse.search_low out = Some l ->
     Detail.check_detail (Some out) st = Detail.DetailOk (Detail.mkDetail h l)) /\
  (forall st, Detail.check_detail None st = Detail.DetailExit) /\
  (forall outputs fuel motion_list,
     Parse.search_motion (outputs (List.length motion_list)) = None ->
     Sampler.check_motion_loop (Sampler.parsed outputs) (S fuel) motion_list
     = Some (Sampler.MotionParseError motion_list)).
Proof.
  split; [|split; [|split; [|split]]].
  - intros out st H. unfold Detail.check_detail. rewrite H.
    destruct (Parse.search_low out), st; reflexivity.
  - intros out st H. unfold Detail.check_detail. rewrite H.
    destruct (Parse.search_high out), st; reflexivity.
  - intros out st h l Hh Hl. unfold Detail.check_detail. rewrite Hh, Hl. reflexivity.
  - reflexivity.
  - intros outputs fuel ml H. simpl. unfold Sampler.parsed. rewrite H. reflexivity.
Qed.

Lemma score_extraction_absent_pattern_witness :
  Detail.check_detail (Some "LowDetail: 31%"%string) (Detail.mkDetail 42 17)
  = Detail.DetailOk (Detail.mkDetail 42 31) /\
  Sampler.check_motion_loop (Sampler.parsed (fun _ => "ms: busy"%string)) 5 []
  = Some (Sampler.MotionParseError []).
Proof.
  destruct score_extraction_absent_pattern as [H1 [_ [_ [_ H5]]]].
  split.
  - rewrite (H1 "LowDetail: 31%"%string (Detail.mkDetail 42 17)) by (vm_compute; reflexivity).
    vm_compute. reflexivity.
  - apply (H5 (fun _ => "ms: busy"%string) 4%nat []). vm_compute. reflexivity.
Defined.

(** ** hd_delta *)
Module HighDetailFacts.
Import HighDetail.

Section Facts.
Variable hs : Z -> Z.
Variable tgt : Z.

Lemma map_seq_shift (g : nat -> Z) (k : nat) :
  map g (seq 2 k) = map (fun j => g (S j)) (seq 1 k).
Proof. rewrite <- seq_shift, map_map. reflexivity. Qed.

Lemma probe_spec (fuel : nat) :
  forall f di tr0 f' d dl tr,
  probe_loop hs tgt fuel f di tr0 = Some (f', d, dl, tr) ->
  exists k, (1 <= k)%nat /\ f' = f + Z.of_nat k /\
    tr = tr0 ++ map (fun j => f + Z.of_nat j) (seq 1 k) /\
    (forall j, (1 <= j < k)%nat -> delta_of hs tgt (f + Z.of_nat j) = di) /\
    dl = delta_of hs tgt f' /\
    ((d = 1 /\ dl < di) \/ (d = -1 /\ di < dl)).
Proof.
  induction fuel as [|fu IH]; intros f di tr0 f' d dl tr H; simpl in H;
    [discriminate|].
  destruct (Z.gtb_spec (delta_of hs tgt (f + 1)) di) as [G|G].
  { injection H as <- <- <- <-. exists 1%nat. simpl.
    repeat split; auto; intros; lia. }
  destruct (Z.ltb_spec (delta_of hs tgt (f + 1)) di) as [L|L].
  { injection H as <- <- <- <-. exists 1%nat. simpl.
    repeat split; auto; intros; lia. }
  destruct (IH _ _ _ _ _ _ _ H) as [k [Hk [Hf [Htr [Hj [Hdl Hd]]]]]].
  exists (S k). refine (conj _ (conj _ (conj _ (conj _ (conj Hdl Hd))))).
  - lia.
  - rewrite Hf. lia.
  - rewrite Htr, <- app_assoc. f_equal. simpl. f_equal.
    rewrite map_seq_shift. apply map_ext. intro j. lia.
  - intros j [Hj1 Hj2]. destruct (Nat.eq_dec j 1) as [->|Hne]; [simpl; lia|].
    replace (f + Z.of_nat j) with (f + 1 + Z.of_nat (j - 1)) by lia.
    apply Hj. lia.
Qed.

Lemma descent_spec (fuel : nat) :
  forall f d dl tr0 ff tr,
  descent_loop hs tgt fuel f d dl tr0 = Some (ff, tr) -> dl = delta_of hs tgt f ->
  exists m, (1 <= m)%nat /\
    tr = tr0 ++ map (fun j => f + Z.of_nat j * d) (seq 1 m) /\
    ff = f + (Z.of_nat m - 1) * d /\
    delta_of hs tgt ff < delta_of hs tgt (ff + d) /\
    (ff = f \/ delta_of hs tgt ff <= delta_of hs tgt (ff - d)) /\
    (forall j, (1 <= j < m)%nat ->
       delta_of hs tgt (f + Z.of_nat j * d)
       <= delta_of hs tgt (f + (Z.of_nat j - 1) * d)).
Proof.
  induction fuel as [|fu IH]; intros f d dl tr0 ff tr H Hdl; simpl in H;
    [discriminate|].
  set (f1 := f + d) in H.
  assert (Rec : descent_loop hs tgt fu f1 d (delta_of hs tgt f1) (tr0 ++ [f1])
                = Some (ff, tr) ->
                delta_of hs tgt f1 <= dl ->
                exists m, (1 <= m)%nat /\
                  tr = tr0 ++ map (fun j => f + Z.of_nat j * d) (seq 1 m) /\
                  ff = f + (Z.of_nat m - 1) * d /\
                  delta_of hs tgt ff < delta_of hs tgt (ff + d) /\
                  (ff = f \/ delta_of hs tgt ff <= delta_of hs tgt (ff - d)) /\
                  (forall j, (1 <= j < m)%nat ->
                     delta_of hs tgt (f + Z.of_nat j * d)
                     <= delta_of hs tgt (f + (Z.of_nat j - 1) * d))).
  { intros HR Hle.
    destruct (IH _ _ _ _ _ _ HR eq_refl) as [m [Hm [Htr [Hff [Hmin [Hprev Hsteps]]]]]].
    exists (S m). refine (conj _ (conj _ (conj _ (conj Hmin (conj _ _))))).
    - lia.
    - rewrite Htr, <- app_assoc. f_equal. cbn [map seq app]. f_equal.
      + unfold f1. change (Z.of_nat 1) with 1. ring.
      + rewrite map_seq_shift. apply map_ext. intro j.
        unfold f1. rewrite Nat2Z.inj_succ. ring.
    - rewrite Hff. unfold f1. rewrite Nat2Z.inj_succ. ring.
    - right. destruct Hprev as [E|E]; [|exact E].
      rewrite E. replace (f1 - d) with f by (unfold f1; ring). lia.
    - intros j [Hj1 Hj2]. destruct (Nat.eq_dec j 1) as [->|Hne].
      + change (Z.of_nat 1) with 1. replace (f + (1 - 1) * d) with f by ring.
        replace (f + 1 * d) with f1 by (unfold f1; ring). lia.
      + specialize (Hsteps (j - 1)%nat ltac:(lia)).
        rewrite Nat2Z.inj_sub in Hsteps by lia. simpl in Hsteps.
        replace (f + Z.of_nat j * d) with (f1 + (Z.of_nat j - 1) * d)
          by (unfold f1; ring).
        replace (f + (Z.of_nat j - 1) * d) with (f1 + (Z.of_nat j - 1 - 1) * d)
          by (unfold f1; ring).
        exact Hsteps. }
  destruct (Z.ltb_spec (delta_of hs tgt f1) dl) as [L|L].
  { apply Rec; [exact H|lia]. }
  destruct (Z.gtb_spec (delta_of hs tgt f1) dl) as [G|G].
  { injection H as <- <-. exists 1%nat. cbn [map seq].
    change (Z.of_nat 1) with 1.
    refine (conj _ (conj _ (conj _ (conj _ (conj _ _))))).
    - lia.
    - unfold f1. do 3 f_equal. ring.
    - unfold f1. ring.
    - replace (f1 - d + d) with f1 by ring. replace (f1 - d) with f by (unfold f1; ring).
      lia.
    - left. unfold f1. ring.
    - intros; lia. }
  apply Rec; [exact H|lia].
Qed.
End Facts.

End HighDetailFacts.

(** C5 (counterexample): with scores [hs_tie] and target 60 from fineness 9,
    the +1 probe to 10 ties the initial delta and the probe goes on to 11;
    the descent then passes 9, whose delta equals that of 10. The finenesses
    tried are not one +1 step followed by steps of a single direction. *)
Lemma hd_delta_probe_counterexample :
  HighDetail.hd_delta hs_tie 60 20 9 (hs_tie 9) = Some (7, -1, [10; 11; 10; 9; 8; 7; 6])
  /\ HighDetail.delta_of hs_tie 60 10 = HighDetail.delta_of hs_tie 60 9
  /\ ~ spec_hd_trace_shape 9 [10; 11; 10; 9; 8; 7; 6].
Proof.
  split; [reflexivity|]. split; [reflexivity|].
  intros [d [Hd H]].
  pose proof (H 1%nat ltac:(simpl; lia)) as H1.
  pose proof (H 2%nat ltac:(simpl; lia)) as H2.
  cbn [nth] in H1, H2. change (Z.of_nat 1) with 1 in H1.
  change (Z.of_nat 2) with 2 in H2. lia.
Qed.

(** C5 (amended): if [hd_delta] ends, starting from fineness [f0] with its
    score [hs f0], with final fineness [ff], direction [d] and list [tr] of
    finenesses tried, then: the probe tries [f0+1], ..., [f0+k], where every
    probe before the last has the initial delta; the last probe fixes [d] to
    +1 if its delta is smaller than the initial one and to -1 if larger; the
    descent then tries [f0+k+d], ..., [f0+k+m*d], each step before the last
    not growing the delta (an equal delta continues); the last step grows it
    and [ff] is the fineness one step back. [ff] is a local minimum of the
    delta along both neighbours. *)
Theorem hd_delta_search (hs : Z -> Z) (tgt : Z) (fuel : nat) (f0 ff d : Z)
  (tr : list Z)
  (H : HighDetail.hd_delta hs tgt fuel f0 (hs f0) = Some (ff, d, tr)) :
  let delta := HighDetail.delta_of hs tgt in
  exists k m, (1 <= k)%nat /\ (1 <= m)%nat /\
    tr = map (fun j => f0 + Z.of_nat j) (seq 1 k)
         ++ map (fun j => f0 + Z.of_nat k + Z.of_nat j * d) (seq 1 m) /\
    (forall j, (1 <= j < k)%nat -> delta (f0 + Z.of_nat j) = delta f0) /\
    ((d = 1 /\ delta (f0 + Z.of_nat k) < delta f0) \/
     (d = -1 /\ delta f0 < delta (f0 + Z.of_nat k))) /\
    (forall j, (1 <= j < m)%nat ->
       delta (f0 + Z.of_nat k + Z.of_nat j * d)
       <= delta (f0 + Z.of_nat k + (Z.of_nat j - 1) * d)) /\
    ff = f0 + Z.of_nat k + (Z.of_nat m - 1) * d /\
    delta ff < delta (ff + d) /\
    delta ff <= delta (ff - d).
Proof.
  intro delta. unfold HighDetail.hd_delta in H.
  destruct (HighDetail.probe_loop hs tgt fuel f0 (Z.abs (hs f0 - tgt)) [])
    as [[[[fk d'] dl] tr1]|] eqn:Hp; [|discriminate].
  destruct (HighDetail.descent_loop hs tgt fuel fk d' dl tr1)
    as [[ff' tr']|] eqn:Hd; [|discriminate].
  injection H as <- <- <-.
  destruct (HighDetailFacts.probe_spec hs tgt fuel _ _ _ _ _ _ _ Hp)
    as [k [Hk [Hfk [Htr1 [Hties [Hdl Hdir]]]]]].
  destruct (HighDetailFacts.descent_spec hs tgt fuel _ _ _ _ _ _ Hd Hdl)
    as [m [Hm [Htr [Hff [Hmin [Hprev Hsteps]]]]]].
  change (Z.abs (hs f0 - tgt)) with (delta f0) in Hties, Hdir.
  fold delta in Hties, Hdir, Hmin, Hprev, Hsteps, Hdl.
  subst fk.
  exists k, m.
  refine (conj Hk (conj Hm (conj _ (conj Hties (conj _ (conj Hsteps (conj Hff (conj Hmin _)))))))).
  - rewrite Htr, Htr1. reflexivity.
  - rewrite Hdl in Hdir. exact Hdir.
  - destruct Hprev as [E|E]; [|exact E].
    assert (Hback : delta (f0 + Z.of_nat k - 1) = delta f0).
    { destruct (Nat.eq_dec k 1) as [->|Hne].
      - f_equal. lia.
      - replace (f0 + Z.of_nat k - 1) with (f0 + Z.of_nat (k - 1)) by lia.
        apply Hties. lia. }
    rewrite Hdl in Hdir.
    destruct Hdir as [[-> Hlt]|[-> Hgt]].
    + rewrite E. replace (f0 + Z.of_nat k - 1) with (f0 + Z.of_nat k - 1) by ring.
      rewrite Hback. lia.
    + exfalso. rewrite E in Hmin.
      replace (f0 + Z.of_nat k + -1) with (f0 + Z.of_nat k - 1) in Hmin by ring.
      rewrite Hback in Hmin. lia.
Qed.

(** Witness of [hd_delta_search]: scores [hs_tie], target 60, fineness 9. *)
Lemma hd_delta_search_witness :
  HighDetail.hd_delta hs_tie 60 20 9 (hs_tie 9) = Some (7, -1, [10; 11; 10; 9; 8; 7; 6])
  /\ HighDetail.delta_of hs_tie 60 7 < HighDetail.delta_of hs_tie 60 (7 + -1)
  /\ HighDetail.delta_of hs_tie 60 7 <= HighDetail.delta_of hs_tie 60 (7 - -1).
Proof.
  assert (E : HighDetail.hd_delta hs_tie 60 20 9 (hs_tie 9)
              = Some (7, -1, [10; 11; 10; 9; 8; 7; 6])) by reflexivity.
  destruct (hd_delta_search hs_tie 60 20 9 7 (-1) _ E)
    as [k [m [_ [_ [_ [_ [_ [_ [_ [A B]]]]]]]]]].
  exact (conj E (conj A B)).
Defined.

(** C6: [make_scene] renders 21 frames, for the angles 0, 9, ..., 180 in
    ascending order with labels 0, ..., 20; encodes them at 50 frames per
    second; loops the encoded video with [-stream_loop 1000] (so at least
    1000 repetitions are requested) and trims to 3:00 into the file named
    after [name]. The 1001 plays of the 21 frames at 50 fps last longer
    than the 180 seconds kept by the trim. *)
Theorem make_scene_frames_and_loop (filepath name : string) :
  let job := Scene.make_scene filepath name in
  map fst (Scene.frames job) = map (fun k => 9 * Z.of_nat k) (seq 0 21) /\
  map snd (Scene.frames job) = map Z.of_nat (seq 0 21) /\
  List.length (Scene.frames job) = 21%nat /\
  Scene.framerate job = 50 /\
  Scene.loop_input job = Scene.encoded job /\
  1000 <= Scene.stream_loop job /\
  Scene.trim job = (3, 0) /\
  Scene.out_file job = Scene.frames_file filepath name /\
  Scene.framerate job * (60 * fst (Scene.trim job) + snd (Scene.trim job))
    <= (Scene.stream_loop job + 1) * Z.of_nat (List.length (Scene.frames job)).
Proof.
  intro job.
  refine (conj _ (conj _ (conj _ (conj _ (conj _ (conj _ (conj _ (conj _ _)))))))).
  all: try reflexivity.
  all: vm_compute; discriminate.
Qed.

Module RenderFacts.
Import Render.

Lemma overlap_empty (lo hi : Q) (i : Z) : (hi <= lo)%Q -> overlap lo hi i == 0.
Proof.
  intro H. unfold overlap. apply Q.max_l.
  pose proof (Q.le_min_l hi (inject_Z i + 1)).
  pose proof (Q.le_max_l lo (inject_Z i)).
  lra.
Qed.

Lemma coverage8_zero_rect (i j : Z) : coverage8 zero_rect i j = 0.
Proof.
  unfold coverage8.
  assert (E : coverage zero_rect i j * 255 + (1 # 2) == 1 # 2).
  { unfold coverage.
    rewrite (overlap_empty _ _ i) by (vm_compute; discriminate).
    rewrite (overlap_empty _ _ j) by (vm_compute; discriminate).
    ring. }
  rewrite (Qfloor_comp _ _ E). reflexivity.
Qed.

Lemma mul_un8_0 (a : Z) : mul_un8 a 0 = 0.
Proof. unfold mul_un8. rewrite Z.mul_0_r. reflexivity. Qed.

Lemma mul_un8_255 (d : Z) : 0 <= d <= 255 -> mul_un8 d 255 = d.
Proof.
  intro H. unfold mul_un8.
  rewrite !Z.shiftr_div_pow2 by lia. change (2 ^ 8) with 256.
  assert (Q1 : (d * 255 + 128) / 256 = d \/ (d * 255 + 128) / 256 = d - 1).
  { destruct (Z.le_gt_cases d 128).
    - left. symmetry. apply Z.div_unique with (128 - d); lia.
    - right. symmetry. apply Z.div_unique with (384 - d); lia. }
  destruct Q1 as [-> | ->].
  - symmetry. apply Z.div_unique with 128; lia.
  - symmetry. apply Z.div_unique with 127; lia.
Qed.

Lemma over_channel_no_mask (sa s d : Z) :
  0 <= d <= 255 -> over_channel sa s d 0 = d.
Proof.
  intro H. unfold over_channel, add_un8.
  rewrite !mul_un8_0. rewrite Z.sub_0_r, mul_un8_255 by exact H. lia.
Qed.

Lemma overlap_range (lo hi : Q) (i : Z) : (0 <= overlap lo hi i <= 1)%Q.
Proof.
  unfold overlap. split; [apply Q.le_max_l|].
  apply Q.max_lub; [lra|].
  pose proof (Q.le_min_r hi (inject_Z i + 1)).
  pose proof (Q.le_max_r lo (inject_Z i)). lra.
Qed.

Lemma overlap_before (lo hi : Q) (i : Z) : (hi <= inject_Z i)%Q -> overlap lo hi i == 0.
Proof.
  intro H. unfold overlap. apply Q.max_l.
  pose proof (Q.le_min_l hi (inject_Z i + 1)).
  pose proof (Q.le_max_r lo (inject_Z i)). lra.
Qed.

Lemma overlap_after (lo hi : Q) (i : Z) : (inject_Z i + 1 <= lo)%Q -> overlap lo hi i == 0.
Proof.
  intro H. unfold overlap. apply Q.max_l.
  pose proof (Q.le_min_r hi (inject_Z i + 1)).
  pose proof (Q.le_max_l lo (inject_Z i)). lra.
Qed.

Lemma overlap_full (lo hi : Q) (i : Z) :
  (lo <= inject_Z i)%Q -> (inject_Z i + 1 <= hi)%Q -> overlap lo hi i == 1.
Proof.
  intros H1 H2. unfold overlap.
  rewrite (Q.min_r hi (inject_Z i + 1) H2), (Q.max_r lo (inject_Z i) H1).
  setoid_replace (inject_Z i + 1 - inject_Z i)%Q with 1%Q by ring.
  apply Q.max_r. lra.
Qed.

Lemma coverage8_range (r : rect) (i j : Z) : 0 <= coverage8 r i j <= 255.
Proof.
  unfold coverage8, coverage.
  set (a := overlap _ _ i). set (b := overlap _ _ j).
  pose proof (overlap_range (Qmin (rect_x r) (rect_x r + rect_length r))
                (Qmax (rect_x r) (rect_x r + rect_length r)) i) as Ha.
  pose proof (overlap_range (Qmin (rect_y r) (rect_y r + rect_height r))
                (Qmax (rect_y r) (rect_y r + rect_height r)) j) as Hb.
  fold a in Ha. fold b in Hb.
  assert (Hab : (0 <= a * b <= 1)%Q).
  { split; [apply Qmult_le_0_compat; lra|].
    apply Qle_trans with (1 * 1)%Q; [|apply Qle_refl].
    apply Qmult_le_compat_nonneg; lra. }
  set (x := (a * b * 255 + (1 # 2))%Q).
  pose proof (Qfloor_le x) as F1. pose proof (Qlt_floor x) as F2.
  assert (Hx : ((1 # 2) <= x <= 255 + (1 # 2))%Q) by (unfold x; lra).
  split.
  - destruct (Z_lt_le_dec (Qfloor x) 0) as [N|P]; [exfalso|exact P].
    assert (inject_Z (Qfloor x + 1) <= 0)%Q
      by (change 0%Q with (inject_Z 0); rewrite <- Zle_Qle; lia).
    lra.
  - destruct (Z_le_gt_dec (Qfloor x) 255) as [P|N]; [exact P|exfalso].
    assert (256 <= inject_Z (Qfloor x))%Q
      by (change 256%Q with (inject_Z 256); rewrite <- Zle_Qle; lia).
    lra.
Qed.

Lemma coverage8_outside (r : rect) (i j : Z) :
  pixel_outside r i j -> coverage8 r i j = 0.
Proof.
  unfold pixel_outside, coverage8, coverage. intro H.
  assert (E : (overlap (Qmin (rect_x r) (rect_x r + rect_length r))
                 (Qmax (rect_x r) (rect_x r + rect_length r)) i
               * overlap (Qmin (rect_y r) (rect_y r + rect_height r))
                 (Qmax (rect_y r) (rect_y r + rect_height r)) j == 0)%Q).
  { destruct H as [H|[H|[H|H]]].
    - rewrite (overlap_before _ _ _ H). ring.
    - rewrite (overlap_after _ _ _ H). ring.
    - rewrite (overlap_before _ _ _ H). ring.
    - rewrite (overlap_after _ _ _ H). ring. }
  assert (E' : (overlap (Qmin (rect_x r) (rect_x r + rect_length r))
                 (Qmax (rect_x r) (rect_x r + rect_length r)) i
               * overlap (Qmin (rect_y r) (rect_y r + rect_height r))
                 (Qmax (rect_y r) (rect_y r + rect_height r)) j * 255 + (1 # 2)
               == 1 # 2)%Q) by (rewrite E; ring).
  rewrite (Qfloor_comp _ _ E'). reflexivity.
Qed.

Lemma coverage8_inside (r : rect) (i j : Z) :
  pixel_inside r i j -> coverage8 r i j = 255.
Proof.
  unfold pixel_inside, coverage8, coverage. intros [H1 [H2 [H3 H4]]].
  assert (E' : (overlap (Qmin (rect_x r) (rect_x r + rect_length r))
                 (Qmax (rect_x r) (rect_x r + rect_length r)) i
               * overlap (Qmin (rect_y r) (rect_y r + rect_height r))
                 (Qmax (rect_y r) (rect_y r + rect_height r)) j * 255 + (1 # 2)
               == 255 + (1 # 2))%Q)
    by (rewrite (overlap_full _ _ _ H1 H2), (overlap_full _ _ _ H3 H4); ring).
  rewrite (Qfloor_comp _ _ E'). reflexivity.
Qed.

Lemma mul_un8_range (a b : Z) :
  0 <= a <= 255 -> 0 <= b <= 255 -> 0 <= mul_un8 a b <= 255.
Proof.
  intros Ha Hb. unfold mul_un8.
  rewrite !Z.shiftr_div_pow2 by lia. change (2 ^ 8) with 256.
  set (t := a * b + 128).
  assert (Ht : 128 <= t <= 65153) by (unfold t; nia).
  pose proof (Z.div_mod t 256 ltac:(lia)). pose proof (Z.mod_pos_bound t 256 ltac:(lia)).
  set (u := t / 256) in *.
  assert (Hu : 0 <= u <= 254) by lia.
  pose proof (Z.div_mod (u + t) 256 ltac:(lia)).
  pose proof (Z.mod_pos_bound (u + t) 256 ltac:(lia)).
  lia.
Qed.

Lemma over_channel_range (sa s d m : Z) :
  0 <= sa <= 255 -> 0 <= s <= 255 -> 0 <= d <= 255 -> 0 <= m <= 255 ->
  0 <= over_channel sa s d m <= 255.
Proof.
  intros Hsa Hs Hd Hm. unfold over_channel, add_un8.
  pose proof (mul_un8_range s m Hs Hm).
  pose proof (mul_un8_range sa m Hsa Hm).
  pose proof (mul_un8_range d (255 - mul_un8 sa m) Hd ltac:(lia)).
  lia.
Qed.

Lemma over_channel_full (s d : Z) :
  0 <= s <= 255 -> over_channel 255 s d 255 = s.
Proof.
  intro Hs. unfold over_channel, add_un8.
  rewrite (mul_un8_255 s Hs).
  change (mul_un8 255 255) with 255. rewrite Z.sub_diag, mul_un8_0. lia.
Qed.

End RenderFacts.

(** C9: drawing the zero-area rectangle [{x:0, y:0, length:0, height:0}]
    leaves every pixel of an 8-bit image unchanged, whatever the colour, so
    a frame drawn with [rect1] and [rect2] both zero-area equals the same
    frame drawn with no auxiliary rectangle. *)
Theorem zero_rect_draw_is_identity (background : Render.image)
  (draw_motion : Render.image -> Render.image)
  (Hbg : Render.image_ok background) :
  (forall color img, Render.image_ok img ->
     Render.draw_rect zero_rect color img = img) /\
  Render.make_frame background draw_motion zero_rect zero_rect
  = Render.make_frame_no_rects background draw_motion.
Proof.
  assert (D : forall color img, Render.image_ok img ->
                Render.draw_rect zero_rect color img = img).
  { intros color img Hok.
    apply functional_extensionality; intro i.
    apply functional_extensionality; intro j.
    unfold Render.draw_rect. rewrite RenderFacts.coverage8_zero_rect.
    destruct (Hok i j) as [Hr [Hg [Hb Ha]]].
    destruct (img i j) as [r g b a]; simpl in *.
    rewrite !RenderFacts.over_channel_no_mask by assumption. reflexivity. }
  split; [exact D|].
  unfold Render.make_frame, Render.make_frame_no_rects.
  rewrite (D _ background Hbg), (D _ background Hbg). reflexivity.
Qed.

(** Witness of [zero_rect_draw_is_identity]: a white background and no
    motion object. *)
Lemma zero_rect_draw_is_identity_witness :
  Render.image_ok white_image /\
  Render.make_frame white_image (fun img => img) zero_rect zero_rect
  = Render.make_frame_no_rects white_image (fun img => img).
Proof.
  assert (Hok : Render.image_ok white_image).
  { intros i j. unfold Render.pixel_ok, Render.channel_ok. simpl. lia. }
  exact (conj Hok (proj2 (zero_rect_draw_is_identity white_image (fun img => img) Hok))).
Defined.

Module SceneFacts.
Import Scene.

Lemma append_length (s t : string) :
  String.length (String.append s t) = (String.length s + String.length t)%nat.
Proof. induction s as [|a s IH]; simpl; [reflexivity|]. rewrite IH. reflexivity. Qed.

Lemma append_cancel_l (p s t : string) :
  String.append p s = String.append p t -> s = t.
Proof.
  induction p as [|a p IH]; simpl; [tauto|].
  intro H. injection H as H. exact (IH H).
Qed.

Lemma append_cancel_r (s t u : string) :
  String.append s u = String.append t u -> s = t.
Proof.
  revert t. induction s as [|a s IH]; intros [|b t] H; simpl in H.
  - reflexivity.
  - apply (f_equal String.length) in H. simpl in H.
    rewrite append_length in H. lia.
  - apply (f_equal String.length) in H. simpl in H.
    rewrite append_length in H. lia.
  - injection H as -> H. f_equal. exact (IH t H).
Qed.

Lemma frames_file_inj (filepath a b : string) :
  frames_file filepath a = frames_file filepath b -> a = b.
Proof.
  unfold frames_file. intro H.
  apply append_cancel_l in H. apply append_cancel_l in H.
  apply append_cancel_l in H. apply append_cancel_l in H.
  exact (append_cancel_r _ _ _ H).
Qed.

Lemma ffplay_cmd_inj (a b : string) : ffplay_cmd a = ffplay_cmd b -> a = b.
Proof.
  unfold ffplay_cmd. intro H.
  apply append_cancel_l in H. apply append_cancel_l in H.
  exact (append_cancel_r _ _ _ H).
Qed.

End SceneFacts.

(** C10: every [pscc] cycle spawns exactly one command, and it plays
    [<filepath>\bw_frames\scene.mp4]; a scene assembled by [make_scene]
    under any name other than "scene" (such as "high_5%") is a different
    file, so playing it is never the command [pscc] runs. *)
Theorem pscc_plays_scene_file (filepath name : string)
  (Hname : name <> "scene"%string) :
  (forall wait_time parameter,
     exists rest,
       Scene.pscc filepath wait_time parameter
       = Scene.Spawn (Scene.ffplay_cmd (Scene.frames_file filepath "scene")) :: rest
       /\ forall cmd, ~ In (Scene.Spawn cmd) rest) /\
  Scene.ffplay_cmd (Scene.out_file (Scene.make_scene filepath name))
  <> Scene.play_scene filepath.
Proof.
  split.
  - intros wait_time parameter. eexists. split; [reflexivity|].
    intros cmd Hin. simpl in Hin.
    destruct (String.eqb parameter "detail"); [|destruct (String.eqb parameter "motion")];
      simpl in Hin; intuition discriminate.
  - intro H. apply SceneFacts.ffplay_cmd_inj in H.
    apply Hname, (SceneFacts.frames_file_inj filepath). exact H.
Qed.

(** Witness of [pscc_plays_scene_file]: the final high-detail scene name
    for a 5% motion target. *)
Lemma pscc_plays_scene_file_witness :
  "high_5%"%string <> "scene"%string /\
  Scene.ffplay_cmd (Scene.out_file (Scene.make_scene "C:\bw"%string "high_5%"))
  <> Scene.play_scene "C:\bw"%string.
Proof.
  assert (Hn : "high_5%"%string <> "scene"%string) by discriminate.
  exact (conj Hn (proj2 (pscc_plays_scene_file "C:\bw"%string "high_5%" Hn))).
Defined.

(** ** check_motion *)
Module SamplerFacts.
Import Sampler.

Lemma qsum_cons (a : Q) (l : list Q) : qsum (a :: l) = (a + qsum l)%Q.
Proof. reflexivity. Qed.

Lemma qsum_nonneg (l : list Q) : (forall x, In x l -> 0 <= x)%Q -> (0 <= qsum l)%Q.
Proof.
  induction l as [|a l IH]; intro H; simpl; [apply Qle_refl|].
  pose proof (H a (or_introl eq_refl)). pose proof (IH (fun x Hx => H x (or_intror Hx))).
  lra.
Qed.

Lemma sq_nonneg (y : Q) : (0 <= y * y)%Q.
Proof.
  destruct (Qlt_le_dec y 0) as [H|H].
  - setoid_replace (y * y)%Q with ((- y) * (- y))%Q by ring.
    apply Qmult_le_0_compat; lra.
  - apply Qmult_le_0_compat; exact H.
Qed.

Lemma qsum_zero_each (l : list Q) :
  (forall x, In x l -> 0 <= x)%Q -> (qsum l == 0)%Q -> forall x, In x l -> (x == 0)%Q.
Proof.
  induction l as [|a l IH]; intros H Hs x Hx; [destruct Hx|].
  rewrite qsum_cons in Hs.
  pose proof (H a (or_introl eq_refl)) as Ha.
  pose proof (qsum_nonneg l (fun y Hy => H y (or_intror Hy))) as Hl.
  destruct Hx as [<-|Hx]; [lra|].
  apply (IH (fun y Hy => H y (or_intror Hy))); [lra|exact Hx].
Qed.

Lemma qsum_all_zero (l : list Q) : (forall x, In x l -> x == 0)%Q -> (qsum l == 0)%Q.
Proof.
  induction l as [|a l IH]; intro H; simpl; [reflexivity|].
  rewrite (H a (or_introl eq_refl)), (IH (fun y Hy => H y (or_intror Hy))). reflexivity.
Qed.

Lemma qsum_const (l : list Z) (c : Z) :
  (forall x, In x l -> x = c) ->
  (qsum (map inject_Z l) == inject_Z (Z.of_nat (List.length l)) * inject_Z c)%Q.
Proof.
  induction l as [|a l IH]; intro H; simpl; [reflexivity|].
  rewrite (H a (or_introl eq_refl)), (IH (fun y Hy => H y (or_intror Hy))).
  rewrite Zpos_P_of_succ_nat, <- Z.add_1_l, inject_Z_plus. ring.
Qed.

Lemma length_pos_inject (l : list Z) : l <> [] ->
  ~ (inject_Z (Z.of_nat (List.length l)) == 0)%Q.
Proof.
  intros Hne E. destruct l as [|a l]; [congruence|].
  change 0%Q with (inject_Z 0) in E. rewrite inject_Z_injective in E.
  simpl in E. lia.
Qed.

(** The population variance is zero exactly when all values are equal. *)
Lemma np_var_zero_iff (l : list Z) : l <> [] -> ((np_var l == 0)%Q <-> all_equal l).
Proof.
  intro Hne. pose proof (length_pos_inject l Hne) as Hn.
  unfold np_var. set (m := mean l). set (n := inject_Z (Z.of_nat (List.length l))) in *.
  split.
  - intro H.
    assert (Hs : (qsum (map (fun v => (inject_Z v - m) * (inject_Z v - m)) l) == 0)%Q).
    { assert (E : (qsum (map (fun v => (inject_Z v - m) * (inject_Z v - m)) l)
                   == (qsum (map (fun v => (inject_Z v - m) * (inject_Z v - m)) l) / n) * n)%Q)
        by (field; exact Hn).
      rewrite E, H. ring. }
    assert (Each : forall v, In v l -> inject_Z v == m).
    { intros v Hv.
      assert (Pos : forall x, In x (map (fun v => (inject_Z v - m) * (inject_Z v - m))%Q l)
                              -> (0 <= x)%Q).
      { intros x Hx. apply in_map_iff in Hx. destruct Hx as [w [<- _]]. apply sq_nonneg. }
      pose proof (qsum_zero_each _ Pos Hs _ (in_map _ _ _ Hv)) as Z0.
      simpl in Z0. apply Qmult_integral in Z0. destruct Z0; lra. }
    intros x y Hx Hy. apply inject_Z_injective.
    rewrite (Each x Hx), (Each y Hy). reflexivity.
  - intro H. destruct l as [|c t]; [congruence|].
    assert (Hc : forall x, In x (c :: t) -> x = c) by (intros x Hx; apply H; simpl; auto).
    assert (Hm : (m == inject_Z c)%Q).
    { unfold m, mean. fold n. rewrite (qsum_const _ c Hc). fold n. field. exact Hn. }
    rewrite qsum_all_zero; [unfold Qdiv; ring|].
    intros x Hx. apply in_map_iff in Hx. destruct Hx as [w [<- Hw]].
    rewrite (Hc w Hw), Hm. ring.
Qed.

Lemma polled_S (readings : nat -> option Z) (n : nat) :
  polled readings (S n) = polled readings n ++ [reading_value (readings n)].
Proof. unfold polled. rewrite seq_S, map_app. reflexivity. Qed.

Lemma polled_length (readings : nat -> option Z) (n : nat) :
  List.length (polled readings n) = n.
Proof. unfold polled. rewrite length_map, length_seq. reflexivity. Qed.

Lemma last_skipn (k : nat) (l : list Z) (d : Z) :
  (k < List.length l)%nat -> last (skipn k l) d = last l d.
Proof.
  revert l; induction k as [|k IH]; intros l Hk; [reflexivity|].
  destruct l as [|a l]; simpl in Hk; [lia|].
  simpl skipn. rewrite IH by lia.
  destruct l as [|b l]; simpl in Hk; [lia|reflexivity].
Qed.

Lemma lastn_nonempty (l : list Z) : (10 <= List.length l)%nat -> lastn 10 l <> [].
Proof.
  intros H E. apply (f_equal (@List.length Z)) in E.
  unfold lastn in E. rewrite length_skipn in E. simpl in E. lia.
Qed.

Section Loop.
Variable readings : nat -> option Z.

Definition stable_b (l : list Z) : bool := Qeq_bool (np_var (lastn sample_range l)) 0.

Lemma loop_bound (d : nat) :
  forall ml fuel, (List.length ml + d = 20)%nat -> (1 <= d <= fuel)%nat ->
  check_motion_loop readings fuel ml = check_motion_loop readings d ml
  /\ check_motion_loop readings d ml <> None.
Proof.
  induction d as [|d IH]; intros ml fuel Hl Hd; [lia|].
  destruct fuel as [|f]; [lia|]. simpl.
  destruct (readings (List.length ml)) as [x|]; [|split; [reflexivity|discriminate]].
  rewrite length_app. simpl List.length.
  destruct (List.length ml + 1 <? sample_range)%nat eqn:E1.
  - apply IH; [rewrite length_app; simpl; lia|].
    unfold sample_range in E1. apply Nat.ltb_lt in E1. lia.
  - destruct (List.length ml + 1 =? 20)%nat eqn:E2; [split; [reflexivity|discriminate]|].
    destruct (Qeq_bool _ _); [split; [reflexivity|discriminate]|].
    apply IH; [rewrite length_app; simpl; lia|].
    apply Nat.eqb_neq in E2. lia.
Qed.

Lemma loop_outcome (fuel : nat) :
  forall ml v,
  check_motion_loop readings fuel ml = Some (MotionScore v) ->
  ml = polled readings (List.length ml) ->
  (forall k, (k < List.length ml)%nat -> readings k <> None) ->
  (List.length ml < 20)%nat ->
  (forall p, (10 <= p <= List.length ml)%nat -> stable_b (polled readings p) = false) ->
  exists n, (List.length ml < n <= 20)%nat /\ (10 <= n)%nat /\
    (forall k, (k < n)%nat -> readings k <> None) /\
    (forall p, (10 <= p < n)%nat -> stable_b (polled readings p) = false) /\
    (((n < 20)%nat /\ stable_b (polled readings n) = true
      /\ v = last (polled readings n) 0)
     \/ (n = 20%nat /\ v = py_int (mean (polled readings n)))).
Proof.
  induction fuel as [|f IH]; intros ml v H Hml Hr Hlt Hst; simpl in H; [discriminate|].
  destruct (readings (List.length ml)) as [x|] eqn:Rx; [|discriminate].
  set (n0 := List.length ml) in *.
  assert (Hml1 : ml ++ [x] = polled readings (S n0)).
  { rewrite polled_S, <- Hml, Rx. reflexivity. }
  assert (Hr1 : forall k, (k < S n0)%nat -> readings k <> None).
  { intros k Hk. destruct (Nat.eq_dec k n0) as [->|Hne]; [congruence|apply Hr; lia]. }
  rewrite Hml1, polled_length in H.
  destruct (S n0 <? sample_range)%nat eqn:E1.
  - unfold sample_range in E1. apply Nat.ltb_lt in E1.
    pose proof (polled_length readings (S n0)) as PL.
    destruct (IH _ _ H) as [n Hn]; rewrite ?PL.
    + reflexivity.
    + exact Hr1.
    + lia.
    + intros p Hp. lia.
    + exists n. rewrite PL in Hn. destruct Hn as [Hn1 Hn2]. split; [lia|exact Hn2].
  - destruct (S n0 =? 20)%nat eqn:E2.
    + apply Nat.eqb_eq in E2. injection H as <-.
      exists 20%nat. rewrite <- E2.
      refine (conj _ (conj _ (conj Hr1 (conj _ _)))); [lia|lia| |right; auto].
      intros p Hp. apply Hst. lia.
    + apply Nat.eqb_neq in E2. unfold sample_range in E1. apply Nat.ltb_ge in E1.
      destruct (Qeq_bool (np_var (lastn sample_range (polled readings (S n0)))) 0) eqn:E3.
      * injection H as <-. exists (S n0).
        refine (conj _ (conj _ (conj Hr1 (conj _ _)))); [lia|lia| |].
        { intros p Hp. apply Hst. lia. }
        left. split; [lia|split; [exact E3|]].
        unfold lastn. apply last_skipn. rewrite polled_length. unfold sample_range. lia.
      * pose proof (polled_length readings (S n0)) as PL.
        destruct (IH _ _ H) as [n Hn]; rewrite ?PL.
        -- reflexivity.
        -- exact Hr1.
        -- lia.
        -- intros p Hp. destruct (Nat.eq_dec p (S n0)) as [->|Hne]; [exact E3|].
           apply Hst. lia.
        -- exists n. rewrite PL in Hn. destruct Hn as [Hn1 Hn2]. split; [lia|exact Hn2].
Qed.

Lemma stable_b_iff (p : nat) :
  (10 <= p)%nat ->
  (stable_b (polled readings p) = true <-> all_equal (lastn 10 (polled readings p))).
Proof.
  intro Hp. unfold stable_b. rewrite Qeq_bool_iff.
  apply np_var_zero_iff, lastn_nonempty. rewrite polled_length. exact Hp.
Qed.

Lemma outcome (fuel : nat) (v : Z) :
  check_motion readings fuel = Some (MotionScore v) ->
  exists n, (10 <= n <= 20)%nat /\
    (forall k, (k < n)%nat -> readings k <> None) /\
    (forall p, (10 <= p < n)%nat -> ~ all_equal (lastn 10 (polled readings p))) /\
    (((n < 20)%nat /\ all_equal (lastn 10 (polled readings n))
      /\ v = last (polled readings n) 0)
     \/ (n = 20%nat /\ v = py_int (mean (polled readings 20)))).
Proof.
  intro H.
  destruct (loop_outcome fuel [] v H eq_refl (fun k Hk => ltac:(simpl in Hk; lia))
              ltac:(simpl; lia) (fun p Hp => ltac:(simpl in Hp; lia)))
    as [n [Hn1 [Hn2 [Hr [Hst Hres]]]]].
  exists n. refine (conj _ (conj Hr (conj _ _))); [simpl in Hn1; lia| |].
  - intros p Hp Heq. apply (stable_b_iff p) in Heq; [|lia].
    rewrite (Hst p Hp) in Heq. discriminate.
  - destruct Hres as [[Hlt [Hs Hv]]|[-> Hv]]; [left|right; auto].
    split; [exact Hlt|split; [apply stable_b_iff; [lia|exact Hs]|exact Hv]].
Qed.
End Loop.

(** [int(q)] of a rational between two integers lies between them. *)
Lemma py_int_between (a b : Z) (q : Q) :
  (inject_Z a <= q)%Q -> (q <= inject_Z b)%Q -> a <= py_int q <= b.
Proof.
  destruct q as [n d]. unfold py_int, Qle, inject_Z. simpl. rewrite !Z.mul_1_r.
  intros Ha Hb.
  pose proof (Z.quot_rem' n (Zpos d)) as E.
  set (qt := Z.quot n (Zpos d)) in *. set (r := Z.rem n (Zpos d)) in *.
  destruct (Z_le_gt_dec 0 n) as [Hn|Hn].
  - pose proof (Z.rem_bound_pos n (Zpos d) Hn ltac:(lia)). fold r in H.
    split; nia.
  - assert (Hr : - Zpos d < r <= 0).
    { unfold r. rewrite <- (Z.opp_involutive n), Z.rem_opp_l by lia.
      pose proof (Z.rem_bound_pos (- n) (Zpos d) ltac:(lia) ltac:(lia)). lia. }
    split; nia.
Qed.

Lemma list_min (l : list Z) : l <> [] -> exists a, In a l /\ forall x, In x l -> a <= x.
Proof.
  induction l as [|c t IH]; intro Hne; [congruence|].
  destruct t as [|c' t'].
  - exists c. split; [left; reflexivity|]. intros x [<-|[]]. lia.
  - destruct (IH ltac:(discriminate)) as [a [Ha Hmin]].
    destruct (Z_le_gt_dec c a).
    + exists c. split; [left; reflexivity|]. intros x [<-|Hx]; [lia|].
      specialize (Hmin x Hx). lia.
    + exists a. split; [right; exact Ha|]. intros x [<-|Hx]; [lia|auto].
Qed.

Lemma list_max (l : list Z) : l <> [] -> exists b, In b l /\ forall x, In x l -> x <= b.
Proof.
  induction l as [|c t IH]; intro Hne; [congruence|].
  destruct t as [|c' t'].
  - exists c. split; [left; reflexivity|]. intros x [<-|[]]. lia.
  - destruct (IH ltac:(discriminate)) as [b [Hb Hmax]].
    destruct (Z_le_gt_dec b c).
    + exists c. split; [left; reflexivity|]. intros x [<-|Hx]; [lia|].
      specialize (Hmax x Hx). lia.
    + exists b. split; [right; exact Hb|]. intros x [<-|Hx]; [lia|auto].
Qed.

Lemma qsum_lower (l : list Z) (a : Z) : (forall x, In x l -> a <= x) ->
  (inject_Z (Z.of_nat (List.length l)) * inject_Z a <= qsum (map inject_Z l))%Q.
Proof.
  induction l as [|c t IH]; intro H; simpl; [apply Qle_refl|].
  pose proof (IH (fun x Hx => H x (or_intror Hx))).
  assert (inject_Z a <= inject_Z c)%Q by (rewrite <- Zle_Qle; apply H; left; reflexivity).
  rewrite Zpos_P_of_succ_nat, <- Z.add_1_l, inject_Z_plus. change (inject_Z 1) with 1%Q.
  lra.
Qed.

Lemma qsum_upper (l : list Z) (b : Z) : (forall x, In x l -> x <= b) ->
  (qsum (map inject_Z l) <= inject_Z (Z.of_nat (List.length l)) * inject_Z b)%Q.
Proof.
  induction l as [|c t IH]; intro H; simpl; [apply Qle_refl|].
  pose proof (IH (fun x Hx => H x (or_intror Hx))).
  assert (inject_Z c <= inject_Z b)%Q by (rewrite <- Zle_Qle; apply H; left; reflexivity).
  rewrite Zpos_P_of_succ_nat, <- Z.add_1_l, inject_Z_plus. change (inject_Z 1) with 1%Q.
  lra.
Qed.

Lemma py_int_mean_between (l : list Z) : l <> [] ->
  exists a b, In a l /\ In b l /\ a <= py_int (mean l) <= b.
Proof.
  intro Hne.
  destruct (list_min l Hne) as [a [Ha Hmin]].
  destruct (list_max l Hne) as [b [Hb Hmax]].
  exists a, b. split; [exact Ha|split; [exact Hb|]].
  assert (Hn : (0 < inject_Z (Z.of_nat (List.length l)))%Q).
  { destruct l as [|c t]; [congruence|]. change 0%Q with (inject_Z 0).
    rewrite <- Zlt_Qlt. simpl. lia. }
  apply py_int_between; unfold mean.
  - apply Qle_shift_div_l; [exact Hn|].
    rewrite Qmult_comm. apply qsum_lower. exact Hmin.
  - apply Qle_shift_div_r; [exact Hn|].
    rewrite Qmult_comm. apply qsum_upper. exact Hmax.
Qed.

Lemma last_in (l : list Z) (d : Z) : l <> [] -> In (last l d) l.
Proof.
  induction l as [|a t IH]; intro H; [congruence|].
  destruct t as [|b t]; [left; reflexivity|].
  right. apply IH. discriminate.
Qed.

End SamplerFacts.

(** [check_motion] stops within 20 polls whatever the device prints: with
    room for 20 passes it never runs out, and more room changes nothing. *)
Theorem check_motion_polls_at_most_20 (readings : nat -> option Z) (fuel : nat)
  (Hfuel : (20 <= fuel)%nat) :
  Sampler.check_motion readings fuel = Sampler.check_motion readings 20
  /\ Sampler.check_motion readings 20 <> None.
Proof.
  exact (SamplerFacts.loop_bound readings 20 [] fuel eq_refl ltac:(lia)).
Qed.

Lemma check_motion_polls_at_most_20_witness :
  Sampler.check_motion stabilise_at_20 25 = Sampler.check_motion stabilise_at_20 20
  /\ Sampler.check_motion stabilise_at_20 20 <> None.
Proof. apply (check_motion_polls_at_most_20 stabilise_at_20 25). lia. Defined.

(** When [check_motion] returns a score, it has polled [n] times, with
    [10 <= n <= 20], and every poll printed a score; no window of the last
    ten readings before poll [n] was constant; and either [n < 20], the
    last ten readings are all equal and the score is the latest reading,
    or [n = 20] and the score is [int(mean)] of all 20 readings. *)
Theorem check_motion_score_outcome (readings : nat -> option Z) (fuel : nat) (v : Z)
  (H : Sampler.check_motion readings fuel = Some (Sampler.MotionScore v)) :
  exists n, (10 <= n <= 20)%nat /\
    (forall k, (k < n)%nat -> readings k <> None) /\
    (forall p, (10 <= p < n)%nat -> ~ all_equal (Sampler.lastn 10 (polled readings p))) /\
    (((n < 20)%nat /\ all_equal (Sampler.lastn 10 (polled readings n))
      /\ v = last (polled readings n) 0)
     \/ (n = 20%nat /\ v = Sampler.py_int (Sampler.mean (polled readings 20)))).
Proof. exact (SamplerFacts.outcome readings fuel v H). Qed.

(** Readings that settle on 7 from the 4th poll on: the score is 7, found at
    the 13th poll. *)
Lemma check_motion_score_outcome_witness :
  Sampler.check_motion (fun k => Some (if (k <? 3)%nat then 2 else 7)) 20
  = Some (Sampler.MotionScore 7) /\
  exists n, (10 <= n <= 20)%nat /\
    (forall k, (k < n)%nat -> (fun k => Some (if (k <? 3)%nat then 2 else 7)) k <> None) /\
    (forall p, (10 <= p < n)%nat ->
       ~ all_equal (Sampler.lastn 10 (polled (fun k => Some (if (k <? 3)%nat then 2 else 7)) p))) /\
    (((n < 20)%nat /\
      all_equal (Sampler.lastn 10 (polled (fun k => Some (if (k <? 3)%nat then 2 else 7)) n))
      /\ 7 = last (polled (fun k => Some (if (k <? 3)%nat then 2 else 7)) n) 0)
     \/ (n = 20%nat /\
         7 = Sampler.py_int (Sampler.mean (polled (fun k => Some (if (k <? 3)%nat then 2 else 7)) 20)))).
Proof.
  assert (E : Sampler.check_motion (fun k => Some (if (k <? 3)%nat then 2 else 7)) 20
              = Some (Sampler.MotionScore 7)) by (vm_compute; reflexivity).
  exact (conj E (check_motion_score_outcome _ 20 7 E)).
Defined.

(** A score returned by [check_motion] is never outside the range of the
    readings it polled: with [n] the poll at which it stopped (the first
    poll from the 10th on whose last ten readings agree, or the 20th), it
    lies between the smallest and the largest of the [n] readings (for
    the 20-poll fallback, [int()] of the mean stays in that range). *)
Theorem check_motion_score_within_readings (readings : nat -> option Z) (fuel : nat)
  (v : Z) (H : Sampler.check_motion readings fuel = Some (Sampler.MotionScore v)) :
  exists n a b, (10 <= n <= 20)%nat /\
    (forall k, (k < n)%nat -> readings k <> None) /\
    (forall p, (10 <= p < n)%nat -> ~ all_equal (Sampler.lastn 10 (polled readings p))) /\
    ((n < 20)%nat /\ all_equal (Sampler.lastn 10 (polled readings n)) \/ n = 20%nat) /\
    In a (polled readings n) /\ In b (polled readings n) /\ a <= v <= b.
Proof.
  destruct (SamplerFacts.outcome readings fuel v H) as [n [Hn [Hr [Hw Hres]]]].
  assert (Hne : forall m, (1 <= m)%nat -> polled readings m <> []).
  { intros m Hm E. apply (f_equal (@List.length Z)) in E.
    rewrite SamplerFacts.polled_length in E. simpl in E. lia. }
  destruct Hres as [[Hlt [Heq ->]]|[-> ->]].
  - exists n, (last (polled readings n) 0), (last (polled readings n) 0).
    pose proof (SamplerFacts.last_in _ 0 (Hne n ltac:(lia))).
    split; [exact Hn|]. split; [exact Hr|]. split; [exact Hw|].
    split; [left; split; assumption|]. repeat split; auto; lia.
  - destruct (SamplerFacts.py_int_mean_between _ (Hne 20%nat ltac:(lia)))
      as [a [b [Ha [Hb Hab]]]].
    exists 20%nat, a, b.
    split; [lia|]. split; [exact Hr|]. split; [exact Hw|].
    split; [right; reflexivity|]. repeat split; auto; lia.
Qed.

Lemma check_motion_score_within_readings_witness :
  Sampler.check_motion stabilise_at_20 20 = Some (Sampler.MotionScore 2) /\
  exists n a b, (10 <= n <= 20)%nat /\
    (forall k, (k < n)%nat -> stabilise_at_20 k <> None) /\
    (forall p, (10 <= p < n)%nat ->
       ~ all_equal (Sampler.lastn 10 (polled stabilise_at_20 p))) /\
    ((n < 20)%nat /\ all_equal (Sampler.lastn 10 (polled stabilise_at_20 n)) \/ n = 20%nat) /\
    In a (polled stabilise_at_20 n) /\ In b (polled stabilise_at_20 n) /\ a <= 2 <= b.
Proof.
  assert (E : Sampler.check_motion stabilise_at_20 20 = Some (Sampler.MotionScore 2))
    by (vm_compute; reflexivity).
  exact (conj E (check_motion_score_within_readings stabilise_at_20 20 2 E)).
Defined.

(** ** Score patterns *)
Module ParseFacts.
Import Parse.

Lemma dec_aux_app (f : nat) : forall n x acc,
  dec_aux f n (String.append x acc) = String.append (dec_aux f n x) acc.
Proof.
  induction f as [|f IH]; intros n x acc; [reflexivity|]. simpl.
  destruct (n <? 10); [reflexivity|].
  exact (IH (n / 10) (String _ x) acc).
Qed.

Lemma digits_value_app (a : Z) (s t : string) :
  digits_value a (String.append s t) = digits_value (digits_value a s) t.
Proof. revert a; induction s as [|c s IH]; intro a; simpl; auto. Qed.

Lemma list_ascii_of_string_app (s t : string) :
  list_ascii_of_string (String.append s t)
  = list_ascii_of_string s ++ list_ascii_of_string t.
Proof. induction s as [|c s IH]; simpl; [reflexivity|]. rewrite IH. reflexivity. Qed.

Lemma digit_char (n : Z) :
  0 <= n ->
  is_digit (ascii_of_nat (48 + Z.to_nat (n mod 10))) = true /\
  Z.of_nat (nat_of_ascii (ascii_of_nat (48 + Z.to_nat (n mod 10)))) - 48 = n mod 10.
Proof.
  intro Hn. pose proof (Z.mod_pos_bound n 10 ltac:(lia)) as B.
  unfold is_digit. rewrite nat_ascii_embedding by lia.
  split; [apply andb_true_iff; split; apply Nat.leb_le; lia|lia].
Qed.

Lemma dec_aux_value (f : nat) : forall n,
  0 <= n < 10 ^ Z.of_nat f -> (1 <= f)%nat ->
  digits_value 0 (dec_aux f n EmptyString) = n
  /\ forall c, In c (list_ascii_of_string (dec_aux f n EmptyString)) -> is_digit c = true.
Proof.
  induction f as [|f IH]; intros n Hn Hf; [lia|].
  destruct (digit_char n ltac:(lia)) as [Dg Dv].
  cbn [dec_aux]. set (ch := ascii_of_nat (48 + Z.to_nat (n mod 10))) in *.
  destruct (Z.ltb_spec n 10) as [L|L].
  - cbn [digits_value]. rewrite Dv, Z.mod_small by lia. split; [reflexivity|].
    intros c Hc. destruct Hc as [<-|[]]. exact Dg.
  - change (String ch EmptyString) with (String.append EmptyString (String ch EmptyString)).
    rewrite dec_aux_app.
    destruct f as [|f'].
    { simpl in Hn. lia. }
    assert (Hq : 0 <= n / 10 < 10 ^ Z.of_nat (S f')).
    { split; [apply Z.div_pos; lia|].
      apply Z.div_lt_upper_bound; [lia|].
      rewrite Nat2Z.inj_succ, Z.pow_succ_r in Hn by lia.
      lia. }
    destruct (IH (n / 10) Hq ltac:(lia)) as [V D].
    split.
    + rewrite digits_value_app, V. cbn [digits_value]. rewrite Dv.
      pose proof (Z.div_mod n 10 ltac:(lia)). lia.
    + intros c Hc. rewrite list_ascii_of_string_app in Hc.
      apply in_app_or in Hc. destruct Hc as [Hc|[<-|[]]]; [exact (D c Hc)|exact Dg].
Qed.

Lemma py_str_spec (n : Z) : 0 <= n ->
  digits_value 0 (py_str n) = n
  /\ (forall c, In c (list_ascii_of_string (py_str n)) -> is_digit c = true)
  /\ py_str n <> EmptyString.
Proof.
  intro Hn. unfold py_str.
  assert (B : 0 <= n < 10 ^ Z.of_nat (S (Z.to_nat n))).
  { split; [exact Hn|]. rewrite Nat2Z.inj_succ, Z2Nat.id by exact Hn.
    pose proof (Z.pow_gt_lin_r 10 (Z.succ n) ltac:(lia) ltac:(lia)). lia. }
  destruct (dec_aux_value _ n B ltac:(lia)) as [V D].
  split; [exact V|split; [exact D|]].
  cbn [dec_aux]. set (ch := ascii_of_nat (48 + Z.to_nat (n mod 10))).
  destruct (n <? 10); [discriminate|].
  change (String ch EmptyString) with (String.append EmptyString (String ch EmptyString)).
  rewrite dec_aux_app. intro E. apply (f_equal String.length) in E.
  rewrite SceneFacts.append_length in E. simpl in E. lia.
Qed.

Lemma take_digits_app (d r : string) :
  (forall c, In c (list_ascii_of_string d) -> is_digit c = true) ->
  match r with String c _ => is_digit c = false | EmptyString => True end ->
  take_digits (String.append d r) = (d, r).
Proof.
  intros Hd Hr. induction d as [|c d IH]; simpl.
  - destruct r as [|c r]; [reflexivity|]. simpl. rewrite Hr. reflexivity.
  - rewrite (Hd c (or_introl eq_refl)).
    rewrite IH by (intros x Hx; apply Hd; right; exact Hx). reflexivity.
Qed.

Lemma prefix_app (lit t : string) : prefix lit (String.append lit t) = true.
Proof.
  induction lit as [|a lit IH]; simpl; [destruct t; reflexivity|].
  destruct (ascii_dec a a); [exact IH|congruence].
Qed.

Lemma substring_all (t : string) : substring 0 (String.length t) t = t.
Proof. induction t as [|a t IH]; simpl; [reflexivity|]. rewrite IH. reflexivity. Qed.

Lemma drop_app (lit t : string) : drop (String.length lit) (String.append lit t) = t.
Proof.
  unfold drop. rewrite SceneFacts.append_length.
  replace (String.length lit + String.length t - String.length lit)%nat
    with (String.length t) by lia.
  induction lit as [|a lit IH]; simpl; [apply substring_all|exact IH].
Qed.

(** The anchored match on [lit], one whitespace character, the decimal
    text of [n] and a tail the pattern accepts reads [n]. *)
Lemma match_at_printed (lit : string) (tail : string -> bool) (c : ascii)
  (n : Z) (r : string) :
  0 <= n -> is_space c = true -> tail r = true ->
  match r with String c _ => is_digit c = false | EmptyString => True end ->
  match_at lit tail (String.append lit (String c (String.append (py_str n) r))) = Some n.
Proof.
  intros Hn Hc Ht Hr. destruct (py_str_spec n Hn) as [V [D Ne]].
  unfold match_at. rewrite prefix_app, drop_app, Hc, (take_digits_app _ _ D Hr).
  destruct (py_str n) as [|d ds] eqn:E; [congruence|]. rewrite Ht, V. reflexivity.
Qed.

(** [re.search] skips text where the literal does not start. *)
Lemma search_skip (lit : string) (tail : string -> bool) (pre s : string) :
  label_starts_in lit pre s = false ->
  search (match_at lit tail) (String.append pre s)
  = search (match_at lit tail) s.
Proof.
  induction pre as [|a pre IH]; intro Hp; [reflexivity|].
  cbn [label_starts_in] in Hp. apply orb_false_iff in Hp. destruct Hp as [Hp1 Hp2].
  simpl String.append. simpl search.
  assert (Hm : match_at lit tail (String a (String.append pre s)) = None).
  { unfold match_at. rewrite Hp1. reflexivity. }
  rewrite Hm. apply IH. exact Hp2.
Qed.

Lemma search_here (m : string -> option Z) (s : string) (v : Z) :
  m s = Some v -> search m s = Some v.
Proof. intro H. destruct s; simpl; rewrite H; reflexivity. Qed.

Lemma space_not_digit (c : ascii) : is_space c = true -> is_digit c = false.
Proof.
  unfold is_space, is_digit. intro H.
  apply Bool.not_true_iff_false. intro D.
  apply andb_true_iff in D. destruct D as [D1 D2].
  apply Nat.leb_le in D1. apply Nat.leb_le in D2.
  apply orb_true_iff in H. destruct H as [H|H]; [apply orb_true_iff in H; destruct H as [H|H]|].
  - apply Nat.eqb_eq in H. lia.
  - apply andb_true_iff in H. destruct H as [H1 H2].
    apply Nat.leb_le in H1. apply Nat.leb_le in H2. lia.
  - apply andb_true_iff in H. destruct H as [H1 H2].
    apply Nat.leb_le in H1. apply Nat.leb_le in H2. lia.
Qed.

End ParseFacts.

(** The three score patterns read back a score printed in decimal: for
    [n >= 0], text holding ['HighDetail:'], one whitespace character, the
    digits of [n] and ['%'] gives [n] to [check_detail], the same with
    ['LowDetail:'], and ['30s:'], one whitespace, the digits of [n], one
    whitespace and ['percent'] gives [n] to [check_motion]; any text
    before the pattern is skipped as long as the label does not start at
    an earlier position. *)
Theorem score_patterns_read_printed_score (n : Z) (c : ascii)
  (Hn : 0 <= n) (Hc : Parse.is_space c = true) :
  (forall pre rest,
     label_starts_in "HighDetail:" pre ("HighDetail:" ++ String c (py_str n ++ "%" ++ rest))%string = false ->
     Parse.search_high (pre ++ "HighDetail:" ++ String c (py_str n ++ "%" ++ rest))%string
     = Some n) /\
  (forall pre rest,
     label_starts_in "LowDetail:" pre ("LowDetail:" ++ String c (py_str n ++ "%" ++ rest))%string = false ->
     Parse.search_low (pre ++ "LowDetail:" ++ String c (py_str n ++ "%" ++ rest))%string
     = Some n) /\
  (forall pre rest c', Parse.is_space c' = true ->
     label_starts_in "30s:" pre
       ("30s:" ++ String c (py_str n ++ String c' ("percent" ++ rest)))%string = false ->
     Parse.search_motion
       (pre ++ "30s:" ++ String c (py_str n ++ String c' ("percent" ++ rest)))%string
     = Some n).
Proof.
  split; [|split].
  - intros pre rest Hp. unfold Parse.search_high.
    rewrite ParseFacts.search_skip by exact Hp.
    apply ParseFacts.search_here, ParseFacts.match_at_printed;
      [exact Hn|exact Hc|apply ParseFacts.prefix_app|reflexivity].
  - intros pre rest Hp. unfold Parse.search_low.
    rewrite ParseFacts.search_skip by exact Hp.
    apply ParseFacts.search_here, ParseFacts.match_at_printed;
      [exact Hn|exact Hc|apply ParseFacts.prefix_app|reflexivity].
  - intros pre rest c' Hc' Hp. unfold Parse.search_motion.
    rewrite ParseFacts.search_skip by exact Hp.
    apply ParseFacts.search_here, ParseFacts.match_at_printed; [exact Hn|exact Hc| |].
    + unfold Parse.percent_word_tail. rewrite Hc'. apply ParseFacts.prefix_app.
    + apply ParseFacts.space_not_digit. exact Hc'.
Qed.

Lemma score_patterns_read_printed_score_witness :
  Parse.search_motion ("10s: 3 percent " ++ "30s:" ++ String " "
    (py_str 5 ++ String " " ("percent" ++ "")))%string
  = Some 5.
Proof.
  apply (proj2 (proj2 (score_patterns_read_printed_score 5 " "%char ltac:(lia) eq_refl)));
    vm_compute; reflexivity.
Defined.

(** [draw_rect] ([context.rectangle] then [fill]) under the identity
    transformation, as for [rect1] and [rect2], which [make_frame] draws
    before [translate]/[rotate], on an 8-bit image:
    pixels outside the rectangle keep their value, pixels wholly inside an
    opaque rectangle take its colour, and every channel stays in
    [0, 255]. *)
Theorem draw_rect_paints_only_the_rectangle (r : rect) (color : Render.pixel)
  (img : Render.image) (Himg : Render.image_ok img) (Hcol : Render.pixel_ok color) :
  (forall i j, pixel_outside r i j -> Render.draw_rect r color img i j = img i j) /\
  (Render.px_a color = 255 ->
     forall i j, pixel_inside r i j -> Render.draw_rect r color img i j = color) /\
  Render.image_ok (Render.draw_rect r color img).
Proof.
  destruct Hcol as [Cr [Cg [Cb Ca]]].
  unfold Render.channel_ok in *.
  refine (conj _ (conj _ _)).
  - intros i j Hout. unfold Render.draw_rect.
    rewrite (RenderFacts.coverage8_outside r i j Hout).
    destruct (Himg i j) as [Hr [Hg [Hb Ha]]].
    destruct (img i j) as [pr pg pb pa]; simpl in *.
    rewrite !RenderFacts.over_channel_no_mask by assumption. reflexivity.
  - intros Hop i j Hin. unfold Render.draw_rect.
    rewrite (RenderFacts.coverage8_inside r i j Hin), Hop.
    destruct color as [cr cg cb ca]; simpl in *. subst ca.
    rewrite !RenderFacts.over_channel_full by assumption. reflexivity.
  - intros i j. unfold Render.draw_rect.
    pose proof (RenderFacts.coverage8_range r i j).
    destruct (Himg i j) as [Hr [Hg [Hb Ha]]].
    unfold Render.pixel_ok, Render.channel_ok. simpl.
    repeat split; apply RenderFacts.over_channel_range; assumption.
Qed.

Lemma draw_rect_paints_only_the_rectangle_witness :
  Render.draw_rect (mkRect 0 0 10 10) Render.color_grey white_image 20 3
  = white_image 20 3 /\
  Render.draw_rect (mkRect 0 0 10 10) Render.color_grey white_image 4 3
  = Render.color_grey.
Proof.
  assert (Hw : Render.image_ok white_image).
  { intros i j. unfold Render.pixel_ok, Render.channel_ok. simpl. lia. }
  assert (Hg : Render.pixel_ok Render.color_grey).
  { unfold Render.pixel_ok, Render.channel_ok. simpl. lia. }
  destruct (draw_rect_paints_only_the_rectangle (mkRect 0 0 10 10) _ _ Hw Hg)
    as [Out [In _]].
  split.
  - apply Out. unfold pixel_outside. left. vm_compute. discriminate.
  - apply In; [reflexivity|]. unfold pixel_inside. vm_compute.
    repeat split; discriminate.
Defined.

(** ** Scenario procedures *)
Module ScenarioFacts.
Import LowDetail Scenarios.

Section Keep.
Variable low_of : rect -> rect -> Z.
Variables t tol : Z.
Variable i : idx.
Variable keep : rect * rect -> rect.
Variable r : rect.
Hypothesis Hkeep : forall v p, keep (set i v p) = keep p.

Lemma tune_keeps (st : ld_state) :
  keep (rects st) = r -> Forall (fun p => keep p = r) (scenes st) ->
  keep (rects (tune_rect low_of i st)) = r
  /\ Forall (fun p => keep p = r) (scenes (tune_rect low_of i st)).
Proof.
  intros H1 H2. unfold tune_rect. cbn [rects scenes].
  rewrite <- surjective_pairing, Hkeep. split; [exact H1|].
  apply Forall_app. split; [exact H2|]. constructor; [|constructor].
  rewrite Hkeep. exact H1.
Qed.

Lemma step_keeps (x1 x2 : Q) (st : ld_state) :
  keep (rects st) = r -> Forall (fun p => keep p = r) (scenes st) ->
  match bisection_step low_of t tol i x1 x2 st with
  | BisDone s | BisNext _ _ s =>
      keep (rects s) = r /\ Forall (fun p => keep p = r) (scenes s)
  end.
Proof.
  intros H1 H2.
  pose proof (tune_keeps (set_length i ((x2 + x1) / 2 - get i (poss st))%Q st)
                H1 H2) as K.
  unfold bisection_step.
  repeat match goal with |- context [if ?b then _ else _] => destruct b end;
    exact K.
Qed.

Lemma loop_keeps (fuel : nat) : forall x1 x2 st,
  keep (rects st) = r -> Forall (fun p => keep p = r) (scenes st) ->
  keep (rects (run_state (bisection_loop low_of t tol fuel i x1 x2 st))) = r
  /\ Forall (fun p => keep p = r)
       (scenes (run_state (bisection_loop low_of t tol fuel i x1 x2 st))).
Proof.
  induction fuel as [|fu IH]; intros x1 x2 st H1 H2; simpl; [auto|].
  pose proof (step_keeps x1 x2 st H1 H2) as K.
  destruct (bisection_step low_of t tol i x1 x2 st) as [s|a b s].
  - exact K.
  - apply IH; apply K.
Qed.
End Keep.

Lemma probe_flat (hs : Z -> Z) (tgt f0 h0 : Z)
  (Hflat : forall f, f0 < f -> Z.abs (hs f - tgt) = Z.abs (h0 - tgt)) :
  forall fuel f tr, f0 <= f ->
  HighDetail.probe_loop hs tgt fuel f (Z.abs (h0 - tgt)) tr = None.
Proof.
  induction fuel as [|fu IH]; intros f tr Hf; simpl; [reflexivity|].
  unfold HighDetail.delta_of. rewrite (Hflat (f + 1)) by lia.
  rewrite Z.gtb_ltb, !Z.ltb_irrefl. apply IH. lia.
Qed.

Lemma played_tail (r1 r2 : rect) (name : string) (p : scene_params) (x : Z)
  (Hn : String.eqb name "scene" = false) :
  forall pre s,
  played (hd_delta_calls r1 r2 (pre ++ [x]) ++ [MakeScene name p; Pscc]) s
  = played (hd_delta_calls r1 r2 pre) s
    ++ [Some (mkParams x r1 r2); Some (mkParams x r1 r2)].
Proof.
  induction pre as [|y pre IH]; intros s.
  - simpl. rewrite Hn. reflexivity.
  - simpl. rewrite IH. reflexivity.
Qed.

Lemma last_two {A} (l : list A) (a d : A) : last (l ++ [a; a]) d = a.
Proof.
  replace (l ++ [a; a]) with ((l ++ [a]) ++ [a])
    by (rewrite <- app_assoc; reflexivity).
  apply last_last.
Qed.

Lemma low_loop_spec (hs : Z -> Z) (target : Z) (fuel : nat) : forall f0 f,
  low_fineness_loop hs target fuel f0 = Some f ->
  f0 < f /\ f - f0 <= Z.of_nat fuel /\ hs (f - 1) < target
  /\ (forall g, f0 <= g < f - 1 -> target <= hs g).
Proof.
  induction fuel as [|fu IH]; intros f0 f H; simpl in H; [discriminate|].
  rewrite Z.geb_leb in H. destruct (Z.leb_spec target (hs f0)) as [G|G].
  - destruct (IH _ _ H) as [A [B [C D]]]. repeat split; try lia.
    intros g Hg. destruct (Z.eq_dec g f0) as [->|Ne]; [exact G|]. apply D. lia.
  - rewrite (proj2 (Z.ltb_lt _ _) G) in H. injection H as <-.
    replace (f0 + 1 - 1) with f0 by lia.
    repeat split; try lia.
Qed.

Lemma low_loop_ends (hs : Z -> Z) (target g : Z) (Hlow : hs g < target) :
  forall fuel f0, f0 <= g -> g - f0 < Z.of_nat fuel ->
  exists f, low_fineness_loop hs target fuel f0 = Some f /\ f <= g + 1.
Proof.
  induction fuel as [|fu IH]; intros f0 Hg Hf; [lia|]. simpl.
  rewrite Z.geb_leb. destruct (Z.leb_spec target (hs f0)) as [G|G].
  - assert (f0 <> g) by (intros ->; lia). apply IH; lia.
  - rewrite (proj2 (Z.ltb_lt _ _) G). exists (f0 + 1). split; [reflexivity|lia].
Qed.

Section Box.
Variables high_of low_of : rect -> Z.
Variables ht lt tol : Z.

Lemma box_loop_spec (fuel : nat) : forall x1 x2 tried e r tried',
  box_loop high_of low_of ht lt tol fuel x1 x2 tried = Some (e, r, tried') ->
  exists before, tried' = tried ++ before ++ [r]
  /\ Forall (fun q => low_of q < lt /\ tol < Z.abs (high_of q - ht)) before
  /\ ((e = BoxLowExceeded /\ lt <= low_of r)
      \/ (e = BoxMet /\ low_of r < lt /\ Z.abs (high_of r - ht) <= tol)).
Proof.
  induction fuel as [|fu IH]; intros x1 x2 tried e r tried' H; simpl in H;
    [discriminate|].
  unfold box_step in H.
  set (q := mkRect (inject_Z rect1_x_pos) 0
              ((x2 + x1) / 2 - inject_Z rect1_x_pos)%Q (inject_Z ver_res)) in H.
  rewrite Z.geb_leb in H. destruct (Z.leb_spec lt (low_of q)) as [L|L].
  { injection H as <- <- <-. exists []. split; [reflexivity|].
    split; [constructor|]. left. auto. }
  rewrite Z.gtb_ltb in H.
  destruct (Z.ltb_spec (high_of q) (ht - tol)) as [A|A];
    [|destruct (Z.ltb_spec (ht + tol) (high_of q)) as [B|B];
      [|destruct (Z.leb_spec (Z.abs (high_of q - ht)) tol) as [C|C]]].
  - destruct (IH _ _ _ _ _ _ H) as [bf [E [F G]]].
    exists (q :: bf). split; [rewrite E, <- app_assoc; reflexivity|].
    split; [constructor; [lia|exact F]|exact G].
  - destruct (IH _ _ _ _ _ _ H) as [bf [E [F G]]].
    exists (q :: bf). split; [rewrite E, <- app_assoc; reflexivity|].
    split; [constructor; [lia|exact F]|exact G].
  - injection H as <- <- <-. exists []. split; [reflexivity|].
    split; [constructor|]. right. auto.
  - lia.
Qed.
End Box.

Definition box_rect_ok (lo hi : Q) (q : rect) : Prop :=
  exists len, q = mkRect (inject_Z rect1_x_pos) 0 len (inject_Z ver_res)
  /\ (lo <= inject_Z rect1_x_pos + len <= hi)%Q.

Lemma box_loop_rects (high_of low_of : rect -> Z) (ht lt tol : Z) (lo hi : Q)
  (fuel : nat) : forall x1 x2 tried e r tried',
  (lo <= x1 <= hi)%Q -> (lo <= x2 <= hi)%Q ->
  Forall (box_rect_ok lo hi) tried ->
  box_loop high_of low_of ht lt tol fuel x1 x2 tried = Some (e, r, tried') ->
  Forall (box_rect_ok lo hi) tried'.
Proof.
  induction fuel as [|fu IH]; intros x1 x2 tried e r tried' H1 H2 Ht H;
    simpl in H; [discriminate|].
  assert (Q : box_rect_ok lo hi (mkRect (inject_Z rect1_x_pos) 0
                ((x2 + x1) / 2 - inject_Z rect1_x_pos)%Q (inject_Z ver_res))).
  { eexists. split; [reflexivity|]. LowDetailFacts.qlra. }
  assert (T : Forall (box_rect_ok lo hi)
                (tried ++ [mkRect (inject_Z rect1_x_pos) 0
                  ((x2 + x1) / 2 - inject_Z rect1_x_pos)%Q (inject_Z ver_res)]))
    by (apply Forall_app; split; [exact Ht|constructor; [exact Q|constructor]]).
  unfold box_step in H.
  repeat match type of H with context [if ?b then _ else _] => destruct b end;
    try (injection H as _ _ <-; exact T);
    (eapply IH; [| |exact T|exact H]; LowDetailFacts.qlra).
Qed.

End ScenarioFacts.

(** ld_rect, whichever bisection it runs, changes one rectangle only:
    when it tunes [rect2] every scene it makes keeps [rect1] at its full
    length [x_limit]; otherwise every scene keeps [rect2] at length 0 at
    [hor_res - x_limit].  The rectangles it leaves in [self.rect1],
    [self.rect2] are the same. *)
Theorem ld_rect_tunes_one_rectangle (low_of : rect -> rect -> Z) (t tol : Z)
  (mo : Q) (fuel : nat) (low0 : Z) :
  let st1 := LowDetail.tune_rect low_of LowDetail.R1 (LowDetail.ld_init mo low0) in
  let st := LowDetail.run_state (LowDetail.ld_rect low_of t tol mo fuel low0) in
  let r1 := mkRect 0 0 (LowDetail.x_limit mo) (inject_Z ver_res) in
  let r2 := mkRect (inject_Z hor_res - LowDetail.x_limit mo) 0 0 (inject_Z ver_res) in
  (LowDetail.ld_branch_of t tol st1 = LowDetail.Bisection2 ->
     fst (LowDetail.rects st) = r1
     /\ Forall (fun p => fst p = r1) (LowDetail.scenes st))
  /\ (LowDetail.ld_branch_of t tol st1 <> LowDetail.Bisection2 ->
     snd (LowDetail.rects st) = r2
     /\ Forall (fun p => snd p = r2) (LowDetail.scenes st)).
Proof.
  intros st1 st r1 r2. unfold st, LowDetail.ld_rect. fold st1.
  assert (I1 : fst (LowDetail.rects st1) = r1
               /\ Forall (fun p => fst p = r1) (LowDetail.scenes st1))
    by (split; [reflexivity|repeat constructor]).
  assert (I2 : snd (LowDetail.rects st1) = r2
               /\ Forall (fun p => snd p = r2) (LowDetail.scenes st1))
    by (split; [reflexivity|repeat constructor]).
  destruct (LowDetail.ld_branch_of t tol st1) eqn:E; split; intro HB;
    try congruence; try exact I2.
  - apply (ScenarioFacts.loop_keeps low_of t tol LowDetail.R2 fst r1);
      [reflexivity|apply I1|apply I1].
  - apply (ScenarioFacts.loop_keeps low_of t tol LowDetail.R1 snd r2);
      [reflexivity|apply I2|apply I2].
Qed.

(** hd_delta never ends when every larger fineness puts the high-detail
    score at the same distance from the target as the starting score:
    its first loop neither breaks on a larger nor on a smaller delta. *)
Theorem hd_delta_never_ends_on_flat_delta (hs : Z -> Z) (tgt f0 h0 : Z)
  (Hflat : forall f, f0 < f -> Z.abs (hs f - tgt) = Z.abs (h0 - tgt))
  (fuel : nat) :
  HighDetail.hd_delta hs tgt fuel f0 h0 = None.
Proof.
  unfold HighDetail.hd_delta.
  rewrite (ScenarioFacts.probe_flat hs tgt f0 h0 Hflat) by lia. reflexivity.
Qed.

(** Witness of [hd_delta_never_ends_on_flat_delta]: the score jumps from
    70 to 50 across the target 60 and stays there. *)
Lemma hd_delta_never_ends_on_flat_delta_witness :
  HighDetail.hd_delta hs_cross 60 1000 9 70 = None.
Proof.
  apply hd_delta_never_ends_on_flat_delta.
  intros f Hf. unfold hs_cross. destruct (Z.ltb_spec f 10); lia.
Defined.

(** In medium_detail_scenes, the final [pscc] plays [scene.mp4], which
    holds the last scene hd_delta made, at fineness [ff + d] with the
    direction [d] = 1 or -1; the scene saved as [medium_N%] has the final
    fineness [ff]. *)
Theorem medium_detail_checks_neighbour_scene (hs : Z -> Z) (tgt : Z) (fuel : nat)
  (f0 h0 : Z) (r1 r2 : rect) (mt ff : Z) (calls : list Scenarios.call)
  (H : Scenarios.medium_detail_tail hs tgt fuel f0 h0 r1 r2 mt = Some (ff, calls)) :
  In (Scenarios.MakeScene ("medium_" ++ py_str mt ++ "%") (Scenarios.mkParams ff r1 r2)) calls
  /\ exists d, (d = 1 \/ d = -1)
     /\ last (Scenarios.played calls None) None = Some (Scenarios.mkParams (ff + d) r1 r2).
Proof.
  unfold Scenarios.medium_detail_tail in H.
  destruct (HighDetail.hd_delta hs tgt fuel f0 h0) as [[[ff' d] tr]|] eqn:E;
    [|discriminate].
  injection H as <- <-. split.
  { apply in_or_app. right. left. reflexivity. }
  exists d. unfold HighDetail.hd_delta in E.
  destruct (HighDetail.probe_loop hs tgt fuel f0 (Z.abs (h0 - tgt)) [])
    as [[[[f1 d1] dl] tr1]|] eqn:P; [|discriminate].
  destruct (HighDetail.descent_loop hs tgt fuel f1 d1 dl tr1) as [[f2 tr2]|] eqn:D;
    [|discriminate].
  injection E as <- <- <-.
  destruct (HighDetailFacts.probe_spec hs tgt fuel _ _ _ _ _ _ _ P)
    as [k [_ [_ [_ [_ [Hdl Hd]]]]]].
  destruct (HighDetailFacts.descent_spec hs tgt fuel _ _ _ _ _ _ D Hdl)
    as [m [Hm [Htr [Hff _]]]].
  split; [lia|].
  destruct m as [|m]; [lia|].
  rewrite Htr, seq_S, map_app, app_assoc. cbn [map].
  rewrite ScenarioFacts.played_tail by reflexivity.
  rewrite ScenarioFacts.last_two. rewrite Hff.
  destruct Hd as [[-> _]|[-> _]]; do 2 f_equal; lia.
Qed.

(** Witness of [medium_detail_checks_neighbour_scene]: scores [hs_tie],
    target 60, from fineness 9; the medium scene has fineness 7 and the
    last check plays fineness 6. *)
Lemma medium_detail_checks_neighbour_scene_witness :
  let calls := Scenarios.hd_delta_calls zero_rect zero_rect [10; 11; 10; 9; 8; 7; 6]
               ++ [Scenarios.MakeScene "medium_5%" (Scenarios.mkParams 7 zero_rect zero_rect);
                   Scenarios.Pscc] in
  Scenarios.medium_detail_tail hs_tie 60 20 9 (hs_tie 9) zero_rect zero_rect 5
  = Some (7, calls)
  /\ exists d, (d = 1 \/ d = -1)
     /\ last (Scenarios.played calls None) None
        = Some (Scenarios.mkParams (7 + d) zero_rect zero_rect).
Proof.
  intro calls.
  assert (E : Scenarios.medium_detail_tail hs_tie 60 20 9 (hs_tie 9) zero_rect zero_rect 5
              = Some (7, calls)) by (vm_compute; reflexivity).
  split; [exact E|].
  exact (proj2 (medium_detail_checks_neighbour_scene _ _ _ _ _ _ _ _ _ _ E)).
Defined.

(** low_detail_scenes' fineness loop stops one step past the first
    fineness, counting up from the start, whose high-detail score is
    below the target; all the finenesses before it scored at or above
    the target.  If the score never rises with the fineness, the
    fineness it keeps scores below the target too. *)
Theorem low_detail_fineness_loop_result (hs : Z -> Z) (target : Z) (fuel : nat)
  (f0 f : Z) (H : Scenarios.low_fineness_loop hs target fuel f0 = Some f) :
  f0 < f /\ hs (f - 1) < target
  /\ (forall g, f0 <= g < f - 1 -> target <= hs g)
  /\ ((forall g h, f0 <= g <= h -> hs h <= hs g) -> hs f < target).
Proof.
  destruct (ScenarioFacts.low_loop_spec hs target fuel f0 f H) as [A [_ [C D]]].
  repeat split; try assumption.
  intros Mono. specialize (Mono (f - 1) f). lia.
Qed.

(** Witness of [low_detail_fineness_loop_result]: score [40 - f] from
    fineness 6 with target 30; the loop ends at 12. *)
Lemma low_detail_fineness_loop_result_witness :
  Scenarios.low_fineness_loop (fun f => 40 - f) 30 20 6 = Some 12
  /\ 40 - 12 < 30.
Proof.
  assert (E : Scenarios.low_fineness_loop (fun f => 40 - f) 30 20 6 = Some 12)
    by reflexivity.
  split; [exact E|].
  destruct (low_detail_fineness_loop_result _ _ _ _ _ E) as [_ [_ [_ M]]].
  apply M. intros g h Hg. lia.
Defined.

(** low_detail_scenes' fineness loop ends as soon as some fineness [g] at
    or above the start scores below the target, and stops at [g + 1] at
    the latest. *)
Theorem low_detail_fineness_loop_ends (hs : Z -> Z) (target f0 g : Z) (fuel : nat)
  (Hg : f0 <= g) (Hlow : hs g < target) (Hfuel : g - f0 < Z.of_nat fuel) :
  exists f, Scenarios.low_fineness_loop hs target fuel f0 = Some f /\ f <= g + 1.
Proof. exact (ScenarioFacts.low_loop_ends hs target g Hlow fuel f0 Hg Hfuel). Qed.

(** Witness of [low_detail_fineness_loop_ends]: score [40 - f], target 30,
    from fineness 6; fineness 11 scores 29. *)
Lemma low_detail_fineness_loop_ends_witness :
  exists f, Scenarios.low_fineness_loop (fun f => 40 - f) 30 20 6 = Some f /\ f <= 12.
Proof.
  apply (low_detail_fineness_loop_ends (fun f => 40 - f) 30 6 11 20);
    [lia|reflexivity|reflexivity].
Defined.

(** In high_detail_scenes, [hs_pass] is always assigned: for every score,
    target and tolerance (negative ones included) one of the three
    branches is taken. *)
Theorem high_detail_verdict_always_set (high target tol : Z) :
  Scenarios.hs_verdict_of high target tol <> Scenarios.HsUnset.
Proof.
  unfold Scenarios.hs_verdict_of. rewrite Z.gtb_ltb.
  destruct (Z.leb_spec (Z.abs (high - target)) tol); [discriminate|].
  destruct (Z.ltb_spec (target + tol) high); [discriminate|].
  destruct (Z.ltb_spec high (target - tol)); [discriminate|]. lia.
Qed.

(** The scene high_detail_scenes saves: if the re-measured score meets
    60 within the tolerance it keeps the fineness and no box; otherwise
    it keeps the fineness (score too high) or lowers it by one (too low),
    and the box loop ends at the first box whose low-detail score reaches
    30 or whose high-detail score is within the tolerance of 60, every
    earlier box having done neither; the saved [rect1] is that last box. *)
Theorem high_detail_scenes_saved_scene (hi lo : Z -> rect -> Z) (tol : Z) (mo : Q)
  (fuel : nat) (f g : Z) (r : rect) (tried : list rect)
  (H : Scenarios.high_detail_tail hi lo tol mo fuel f = Some (g, r, tried)) :
  let h := hi f zero_rect in
  (Z.abs (h - 60) <= tol /\ g = f /\ r = zero_rect /\ tried = [])
  \/ (tol < Z.abs (h - 60)
      /\ ((60 + tol < h /\ g = f) \/ (h < 60 - tol /\ g = f - 1))
      /\ exists before, tried = before ++ [r]
         /\ Forall (fun q => lo g q < 30 /\ tol < Z.abs (hi g q - 60)) before
         /\ (30 <= lo g r \/ Z.abs (hi g r - 60) <= tol)).
Proof.
  intro h. unfold Scenarios.high_detail_tail in H. fold h in H.
  unfold Scenarios.hs_verdict_of in H. rewrite Z.gtb_ltb in H.
  destruct (Z.leb_spec (Z.abs (h - 60)) tol) as [A|A].
  { injection H as <- <- <-. left. auto. }
  right. split; [exact A|].
  destruct (Z.ltb_spec (60 + tol) h) as [B|B];
    [|destruct (Z.ltb_spec h (60 - tol)) as [C|C]; [|discriminate]];
    match type of H with
    | match ?m with _ => _ end = _ => destruct m as [[[e r'] tr]|] eqn:E
    end; try discriminate; injection H as <- <- <-;
    (split; [auto|]);
    destruct (ScenarioFacts.box_loop_spec _ _ _ _ _ _ _ _ _ _ _ _ E)
      as [bf [T [F X]]];
    (exists bf; split; [exact T|split; [exact F|]]); destruct X; tauto.
Qed.

(** Witness of [high_detail_scenes_saved_scene]: a too-high score 70 at
    fineness 8 with tolerance 5; the first box (length 348) brings it to 64. *)
Lemma high_detail_scenes_saved_scene_witness :
  Scenarios.high_detail_tail hd_box_high hd_box_low 5 600 10 8
  = Some (8, mkRect 384 0 (1392 # 4) 2160, [mkRect 384 0 (1392 # 4) 2160])
  /\ 60 + 5 < hd_box_high 8 zero_rect.
Proof.
  assert (E : Scenarios.high_detail_tail hd_box_high hd_box_low 5 600 10 8
              = Some (8, mkRect 384 0 (1392 # 4) 2160, [mkRect 384 0 (1392 # 4) 2160]))
    by (vm_compute; reflexivity).
  split; [exact E|].
  destruct (high_detail_scenes_saved_scene _ _ _ _ _ _ _ _ _ E)
    as [[A _]|[_ [[[B _]|[_ Ne]] _]]].
  - vm_compute in A. exfalso. apply A. reflexivity.
  - exact B.
  - vm_compute in Ne. discriminate.
Defined.

(** Every box high_detail_scenes draws is [rect1] at x = [rect1_x_pos]
    (384), y = 0, full height, and its right edge lies between
    [rect1_x_pos] and [x_limit] (which here already subtracts
    [rect1_x_pos]). *)
Theorem high_detail_boxes_within_limits (hi lo : Z -> rect -> Z) (tol : Z) (mo : Q)
  (fuel : nat) (f g : Z) (r : rect) (tried : list rect)
  (H : Scenarios.high_detail_tail hi lo tol mo fuel f = Some (g, r, tried)) :
  Forall (fun q => exists len,
            q = mkRect (inject_Z Scenarios.rect1_x_pos) 0 len (inject_Z ver_res)
            /\ (Qmin (inject_Z Scenarios.rect1_x_pos) (Scenarios.hd_x_limit mo)
                <= inject_Z Scenarios.rect1_x_pos + len
                <= Qmax (inject_Z Scenarios.rect1_x_pos) (Scenarios.hd_x_limit mo))%Q)
    tried.
Proof.
  unfold Scenarios.high_detail_tail in H.
  assert (K : forall g' e r' tr,
    Scenarios.box_loop (hi g') (lo g') 60 30 tol fuel
      (inject_Z Scenarios.rect1_x_pos) (Scenarios.hd_x_limit mo) [] = Some (e, r', tr) ->
    Forall (ScenarioFacts.box_rect_ok
              (Qmin (inject_Z Scenarios.rect1_x_pos) (Scenarios.hd_x_limit mo))
              (Qmax (inject_Z Scenarios.rect1_x_pos) (Scenarios.hd_x_limit mo))) tr).
  { intros g' e r' tr E. eapply ScenarioFacts.box_loop_rects; [| |constructor|exact E].
    - split; [apply Q.le_min_l|apply Q.le_max_l].
    - split; [apply Q.le_min_r|apply Q.le_max_r]. }
  destruct (Scenarios.hs_verdict_of (hi f zero_rect) 60 tol); try discriminate;
    [injection H as _ _ <-; constructor| |];
    match type of H with
    | match ?m with _ => _ end = _ => destruct m as [[[e r'] tr]|] eqn:E
    end; try discriminate; injection H as _ _ <-; exact (K _ _ _ _ E).
Qed.

(** Witness of [high_detail_boxes_within_limits]: the run of
    [high_detail_scenes_saved_scene_witness]; the one box drawn has its
    right edge at 732, between 384 and [x_limit] = 1080. *)
Lemma high_detail_boxes_within_limits_witness :
  Scenarios.high_detail_tail hd_box_high hd_box_low 5 600 10 8
  = Some (8, mkRect 384 0 (1392 # 4) 2160, [mkRect 384 0 (1392 # 4) 2160])
  /\ Forall (fun q => exists len,
            q = mkRect (inject_Z Scenarios.rect1_x_pos) 0 len (inject_Z ver_res)
            /\ (Qmin (inject_Z Scenarios.rect1_x_pos) (Scenarios.hd_x_limit 600)
                <= inject_Z Scenarios.rect1_x_pos + len
                <= Qmax (inject_Z Scenarios.rect1_x_pos) (Scenarios.hd_x_limit 600))%Q)
       [mkRect 384 0 (1392 # 4) 2160].
Proof.
  assert (E : Scenarios.high_detail_tail hd_box_high hd_box_low 5 600 10 8
              = Some (8, mkRect 384 0 (1392 # 4) 2160, [mkRect 384 0 (1392 # 4) 2160]))
    by (vm_compute; reflexivity).
  split; [exact E|].
  exact (high_detail_boxes_within_limits _ _ _ _ _ _ _ _ _ E).
Defined.
